(** * A shallow embedding of [nginx_parser.cpp]

    The program parses an nginx-like configuration text in three stages:
    [token::parse] (characters to tokens), [token::parseGroups] (matched
    braces to nested [Group] tokens) and [config::parse_block] (grouped
    tokens to a tree of directives).  The printers of tokens and of blocks
    are embedded as the text they write.

    Conventions of the embedding:
    - a [std::string] is a [string]; a pair of iterators [(input, end)] into
      a buffer is the suffix of the buffer that starts at [input], so that
      [input == end] reads "the suffix is empty" and [input++] drops the
      head of the suffix;
    - a [std::vector<Token *>] is a [list Token]; the class hierarchy below
      [token::Token] is one inductive type, [dynamic_cast] is a [match];
    - a C++ exception is the [Throw] outcome;
    - loops whose cursor is moved by a callee are recursions on a fuel
      counter; every entry point supplies enough fuel, which is proved
      below ([*_terminates]). *)

From Stdlib Require Import List String Ascii Arith ZArith Lia Bool.
Import ListNotations.
Open Scope string_scope.
Open Scope list_scope.

(** ** Exceptions and outcomes *)

(** [ParsingError] carries its [reason]; [bad_cast] is the [std::bad_cast]
    that [dynamic_cast<String &>] throws on a failed cast. *)
Inductive exception : Type :=
| ParsingError (reason : string)
| bad_cast.

Inductive outcome (A : Type) : Type :=
| Return (a : A)
| Throw (e : exception)
| OutOfFuel.

Arguments Return {A} a.
Arguments Throw {A} e.
Arguments OutOfFuel {A}.

Definition bind {A B : Type} (m : outcome A) (k : A -> outcome B) : outcome B :=
  match m with
  | Return a => k a
  | Throw e => Throw e
  | OutOfFuel => OutOfFuel
  end.

Notation "x <- m ;; k" := (bind m (fun x => k))
  (at level 61, m at next level, right associativity).

(** The error kinds of the specification, as the exceptions of the code. *)
Definition UnmatchedOpeningBrace : exception :=
  ParsingError "No matching closing curly brace".
Definition ExpectedDirectiveName : exception := bad_cast.
Definition UnterminatedDirective : exception :=
  ParsingError "parse_block: directive: unexpected end of input".
Definition ExpectedTerminatorOrBlock : exception :=
  ParsingError "parse_block: directive: expected ; or {".

(** ** Namespace [token] *)

Module token.

(** The subclasses of [token::Token].  The constructor [String] is the class
    [token::String]; the constructor of Rocq's strings is written
    [String.String] from here on. *)
#[warnings="-register-all"]
Inductive Token : Type :=
| Semicolon
| OpeningBrace
| ClosingBrace
| String (content : string)
| Group (content : list Token).

(** [skipComment]: advance to the next newline, which is not consumed. *)
Fixpoint skipComment (input : string) : string :=
  match input with
  | EmptyString => input
  | String.String c input' =>
      if (c =? "010")%char then input else skipComment input'
  end.

(** [skipWhitespace]: the [continue] statements run the [++input] of the
    [for] header, so the character after a comment (its newline) is skipped
    without being looked at. *)
Fixpoint skipWhitespace_loop (fuel : nat) (input : string) : option string :=
  match fuel with
  | O => None
  | S fuel =>
      match input with
      | EmptyString => Some input
      | String.String c input' =>
          if ((c =? " ") || (c =? "009") || (c =? "010"))%char then
            skipWhitespace_loop fuel input'
          else if (c =? "#")%char then
            match skipComment input' with
            | EmptyString => Some EmptyString
            | String.String _ input'' => skipWhitespace_loop fuel input''
            end
          else Some input
      end
  end.

Definition skipWhitespace (input : string) : option string :=
  skipWhitespace_loop (S (length input)) input.

(** The [for (;;)] loop of [parseWord], with the local [string] as an
    accumulator. *)
Fixpoint parseWord_loop (string : string) (input : String.string)
  : option Token * String.string :=
  match input with
  | EmptyString => (Some (String string), input)
  | String.String c input' =>
      if ((c =? " ") || (c =? "009") || (c =? "010") || (c =? "#")
          || (c =? ";") || (c =? "{") || (c =? "}"))%char
      then (Some (String string), input)
      else parseWord_loop (string ++ String.String c EmptyString) input'
  end.

(** [parseWord] takes [input] by reference: the embedding returns the word
    ([None] for the null pointer) and the new value of [input]. *)
Definition parseWord (input : string) : option Token * string :=
  match input with
  | EmptyString => (None, input)
  | String.String c input' =>
      if (c =? ";")%char then (Some Semicolon, input')
      else if (c =? "{")%char then (Some OpeningBrace, input')
      else if (c =? "}")%char then (Some ClosingBrace, input')
      else parseWord_loop EmptyString input
  end.

Fixpoint parse_loop (fuel : nat) (output : list Token) (input : string)
  : option (list Token) :=
  match fuel with
  | O => None
  | S fuel =>
      match input with
      | EmptyString => Some output
      | String.String _ _ =>
          match skipWhitespace input with
          | None => None
          | Some input1 =>
              let (word, input2) := parseWord input1 in
              parse_loop fuel
                (match word with
                 | Some w => output ++ [w]
                 | None => output
                 end) input2
          end
      end
  end.

Definition parse (input : string) : option (list Token) :=
  parse_loop (S (length input)) [] input.

Record ParseGroups : Type := mkParseGroups {
  content : list Token;
  rest : list Token
}.

(** [parseGroups]: one call of [parseGroups_loop] is the [for] loop from the
    cursor [input] with [output] as collected so far.  At an opening brace
    the recursive call starts with an empty [output]; the [++input] of the
    [for] header then steps over the token at [p.rest]. *)
Fixpoint parseGroups_loop (fuel : nat) (output : list Token) (input : list Token)
  : outcome ParseGroups :=
  match fuel with
  | O => OutOfFuel
  | S fuel =>
      match input with
      | [] => Return (mkParseGroups output input)
      | ClosingBrace :: _ => Return (mkParseGroups output input)
      | OpeningBrace :: input' =>
          p <- parseGroups_loop fuel [] input' ;;
          match rest p with
          | [] => Throw (ParsingError "No matching closing curly brace")
          | _ :: input'' =>
              parseGroups_loop fuel (output ++ [Group (content p)]) input''
          end
      | token :: input' => parseGroups_loop fuel (output ++ [token]) input'
      end
  end.

Definition parseGroups (input : list Token) : outcome ParseGroups :=
  parseGroups_loop (S (List.length input)) [] input.

(** The virtual [print] of the token classes, as the text written to
    [std::cout]. *)
Fixpoint print (t : Token) : string :=
  match t with
  | Semicolon => ";"
  | OpeningBrace => "{"
  | ClosingBrace => "}"
  | String content => ("'" ++ content ++ "'")%string
  | Group content =>
      ("("
       ++ (fix loop (l : list Token) : string :=
             match l with
             | [] => EmptyString
             | t' :: l' => (print t' ++ " " ++ loop l')%string
             end) content
       ++ ")")%string
  end.

End token.

Import token.

Definition Tokens : Type := list Token.

(** ** Namespace [config] *)

Module config.

(** [struct Directive]; the null [config] pointer is [None]. *)
#[warnings="-register-all"]
Inductive Directive : Type :=
| mkDirective (name : string) (args : list string) (config : option (list Directive)).

Definition Block : Type := list Directive.

Definition name (d : Directive) : string :=
  match d with mkDirective n _ _ => n end.
Definition args (d : Directive) : list string :=
  match d with mkDirective _ a _ => a end.
Definition config (d : Directive) : option Block :=
  match d with mkDirective _ _ c => c end.

(** The inner loop of [parse_block] ("Parse args."): it collects the
    [String] tokens and leaves at the first other token; it throws when the
    tokens end first. *)
Fixpoint parse_args (args : list string) (input : list Token)
  : outcome (list string * list Token) :=
  match input with
  | [] => Throw (ParsingError "parse_block: directive: unexpected end of input")
  | String s :: input' => parse_args (args ++ [s]) input'
  | _ => Return (args, input)
  end.

(** Token trees are measured by their number of tokens at all depths. *)
Fixpoint token_size (t : Token) : nat :=
  match t with
  | Group content => S (list_sum (map token_size content))
  | _ => 1
  end.

Definition tokens_size (input : list Token) : nat :=
  list_sum (map token_size input).

(** [parse_block]: the outer [for (;;)] loop from the cursor [input] with
    [*output] as collected so far. *)
Fixpoint parse_block_loop (fuel : nat) (output : Block) (input : list Token)
  : outcome Block :=
  match fuel with
  | O => OutOfFuel
  | S fuel =>
      match input with
      | [] => Return output
      | String name :: input1 =>
          r <- parse_args [] input1 ;;
          let (args, input2) := r in
          match input2 with
          | [] => Throw (ParsingError "unexpected end of input")
          | Semicolon :: input3 =>
              parse_block_loop fuel (output ++ [mkDirective name args None]) input3
          | Group content :: input3 =>
              b <- parse_block_loop fuel [] content ;;
              parse_block_loop fuel (output ++ [mkDirective name args (Some b)]) input3
          | _ => Throw (ParsingError "parse_block: directive: expected ; or {")
          end
      | _ => Throw bad_cast
      end
  end.

Definition parse_block (input : list Token) : outcome Block :=
  parse_block_loop (S (tokens_size input)) [] input.

(** The text of a loop that writes a tab [n] times. *)
Fixpoint tabs (n : nat) : string :=
  match n with
  | O => EmptyString
  | S n' => String.String "009" (tabs n')
  end.

(** [int] is taken as the 32-bit integer of the common ABIs.  Signed
    overflow is undefined in C++: an [int] operation whose result is out of
    range has no value in the embedding. *)
Definition INT_MIN : Z := -2147483648.
Definition INT_MAX : Z := 2147483647.

Definition checked (z : Z) : option Z :=
  if ((INT_MIN <=? z) && (z <=? INT_MAX))%Z then Some z else None.

(** [Directive::print] and [print_block], as the text written to
    [std::cout], or [None] where the run is undefined ([depth + 1] or
    [depth - 1] out of the range of [int]); [std::endl] writes a newline.
    A loop [for (int i = 0; i < n; i++)] runs [Z.to_nat n] times, none when
    [n] is not positive. *)
Fixpoint print (d : Directive) (depth : Z) {struct d} : option string :=
  match d with
  | mkDirective name args config =>
      let head :=
        (name ++ " "
         ++ concat EmptyString (map (fun arg => arg ++ " ") args))%string in
      match config with
      | Some b =>
          match
            (fix print_block (b : list Directive) : option string :=
               match b with
               | [] => Some EmptyString
               | d' :: b' =>
                   match checked (depth + 1) with
                   | None => None
                   | Some depth' =>
                       match print d' depth', print_block b' with
                       | Some text, Some text' =>
                           Some (tabs (Z.to_nat depth) ++ text
                                 ++ String.String "010" EmptyString
                                 ++ text')%string
                       | _, _ => None
                       end
                   end
               end) b
          with
          | None => None
          | Some body =>
              match checked (depth - 1) with
              | None => None
              | Some last =>
                  Some (head ++ "{" ++ String.String "010" EmptyString
                        ++ body ++ tabs (Z.to_nat last) ++ "}")%string
              end
          end
      | None => Some (head ++ "; ")%string
      end
  end.

Fixpoint print_block (b : Block) (depth : Z) : option string :=
  match b with
  | [] => Some EmptyString
  | d :: b' =>
      match checked (depth + 1) with
      | None => None
      | Some depth' =>
          match print d depth', print_block b' depth with
          | Some text, Some text' =>
              Some (tabs (Z.to_nat depth) ++ text
                    ++ String.String "010" EmptyString
                    ++ text')%string
          | _, _ => None
          end
      end
  end.

End config.

Import config.

(** ** The pipeline of [main] *)

(** [main] tokenizes, groups, and builds the block from [g.content]; it does
    not look at [g.rest]. *)
Definition pipeline (input : string) : outcome Block :=
  match parse input with
  | None => OutOfFuel
  | Some tokens =>
      g <- parseGroups tokens ;;
      parse_block (content g)
  end.


(** [print_tokens] wraps the tokens in a [Group] and prints it. *)
Definition print_tokens (tokens : Tokens) : string :=
  token.print (Group tokens).

(** * Vocabulary of the properties *)

(** ** Characters and tokens *)

(** The characters that [skipWhitespace] steps over or starts a comment
    at. *)
Definition is_blank (c : ascii) : bool :=
  ((c =? " ") || (c =? "009") || (c =? "010") || (c =? "#"))%char.

(** [input] is empty or starts with a character that is neither blank nor
    the comment marker. *)
Definition at_word (input : string) : Prop :=
  match input with
  | EmptyString => True
  | String.String c _ => is_blank c = false
  end.

Definition is_String (t : Token) : bool :=
  match t with
  | String _ => true
  | _ => false
  end.

(** A token of the tokenizer: any token but a [Group]. *)
Definition is_flat (t : Token) : bool :=
  match t with
  | Group _ => false
  | _ => true
  end.

(** No brace token occurs in [t], at any depth. *)
Fixpoint brace_free (t : Token) : bool :=
  match t with
  | OpeningBrace | ClosingBrace => false
  | Group content => forallb brace_free content
  | _ => true
  end.

(** Writing a grouped token back: the content of a [Group] between one
    opening and one closing brace, any other token as it is. *)
Fixpoint ungroup_token (t : Token) : list Token :=
  match t with
  | Group content => OpeningBrace :: flat_map ungroup_token content ++ [ClosingBrace]
  | _ => [t]
  end.

Definition ungroup (tokens : list Token) : list Token :=
  flat_map ungroup_token tokens.

(** ** Nesting depth in a token sequence *)

(** Reading [tokens] from nesting depth [depth]: the depth at the end of
    the tokens, or the tokens after the first closing brace that is met at
    depth 0 (a closing brace with no opening brace before it). *)
Inductive scan_result : Type :=
| Ended (depth : nat)
| Closed (rest : list Token).

Fixpoint scan (depth : nat) (tokens : list Token) : scan_result :=
  match tokens with
  | [] => Ended depth
  | OpeningBrace :: tokens' => scan (S depth) tokens'
  | ClosingBrace :: tokens' =>
      match depth with
      | O => Closed tokens'
      | S depth' => scan depth' tokens'
      end
  | _ :: tokens' => scan depth tokens'
  end.

(** The number of tokens of [tokens] that satisfy [f] and stand at depth 0,
    when the first token stands at depth [depth]. *)
Fixpoint count_top (f : Token -> bool) (depth : nat) (tokens : list Token) : nat :=
  match tokens with
  | [] => 0
  | t :: tokens' =>
      (if (depth =? 0)%nat && f t then 1 else 0)
      + count_top f
          (match t with
           | OpeningBrace => S depth
           | ClosingBrace => pred depth
           | _ => depth
           end) tokens'
  end.

Definition is_Semicolon (t : Token) : bool :=
  match t with
  | Semicolon => true
  | _ => false
  end.

Definition is_OpeningBrace (t : Token) : bool :=
  match t with
  | OpeningBrace => true
  | _ => false
  end.

(** The null test on [Directive::config]. *)
Definition has_body (d : Directive) : bool :=
  match config d with
  | Some _ => true
  | None => false
  end.

Definition top_level_terminators (tokens : list Token) : nat :=
  count_top is_Semicolon 0 tokens.

Definition top_level_groups (tokens : list Token) : nat :=
  count_top is_OpeningBrace 0 tokens.

(** ** The directive grammar on token sequences

    [Block := Directive*] and
    [Directive := STRING Arg* ( ';' | '{' Block '}' )]. *)
Inductive well_formed : list Token -> Prop :=
| wf_empty : well_formed []
| wf_simple (name : string) (args : list string) (tokens : list Token) :
    well_formed tokens ->
    well_formed (String name :: map String args ++ Semicolon :: tokens)
| wf_nested (name : string) (args : list string) (body tokens : list Token) :
    well_formed body ->
    well_formed tokens ->
    well_formed (String name :: map String args
                 ++ OpeningBrace :: body ++ ClosingBrace :: tokens).

(** ** Words, and blocks written as tokens *)

(** The characters at which the loop of [parseWord] stops. *)
Definition is_delimiter (c : ascii) : bool :=
  ((c =? " ") || (c =? "009") || (c =? "010") || (c =? "#")
   || (c =? ";") || (c =? "{") || (c =? "}"))%char.

Fixpoint no_delimiter (s : string) : bool :=
  match s with
  | EmptyString => true
  | String.String c s' => negb (is_delimiter c) && no_delimiter s'
  end.

(** A word: at least one character, none of them a delimiter. *)
Definition is_word (s : string) : bool :=
  match s with
  | EmptyString => false
  | String.String _ _ => no_delimiter s
  end.

(** The text a token of the tokenizer is read from. *)
Definition token_text (t : Token) : string :=
  match t with
  | Semicolon => ";"
  | OpeningBrace => "{"
  | ClosingBrace => "}"
  | String content => content
  | Group _ => EmptyString
  end.

(** A token as [parse] returns them: no [Group], and the content of a
    [String] is a word. *)
Definition is_tokenizer_token (t : Token) : bool :=
  match t with
  | String content => is_word content
  | Group _ => false
  | _ => true
  end.

(** A text that [parse] reads the tokens from: each token followed by a
    space. *)
Fixpoint tokens_text (tokens : list Token) : string :=
  match tokens with
  | [] => EmptyString
  | t :: tokens' => (token_text t ++ " " ++ tokens_text tokens')%string
  end.

(** [s] is empty or starts with a delimiter. *)
Definition at_delimiter (s : string) : Prop :=
  match s with
  | EmptyString => True
  | String.String c _ => is_delimiter c = true
  end.


Definition is_space (c : ascii) : bool :=
  ((c =? " ") || (c =? "009") || (c =? "010"))%char.


(** The number of nested [print_block] calls that printing [b] makes, each
    of which adds one to the depth. *)
Fixpoint directive_levels (d : Directive) : nat :=
  match d with
  | mkDirective _ _ config =>
      match config with
      | Some b =>
          (fix block_levels (b : list Directive) : nat :=
             match b with
             | [] => O
             | d' :: b' => Nat.max (S (directive_levels d')) (block_levels b')
             end) b
      | None => O
      end
  end.

Fixpoint block_levels (b : Block) : nat :=
  match b with
  | [] => O
  | d :: b' => Nat.max (S (directive_levels d)) (block_levels b')
  end.

(** ** The lexical structure of a text

    Reading a text character by character: outside a comment a ['#']
    starts a comment, inside a comment a newline ends it. *)

(** [blank_scan in_comment text] is [None] when [text] holds a character
    that is neither white space nor part of a comment; otherwise it tells
    whether the text ends inside a comment. *)
Fixpoint blank_scan (in_comment : bool) (text : string) : option bool :=
  match text with
  | EmptyString => Some in_comment
  | String.String c text' =>
      if in_comment then blank_scan (negb (c =? "010")%char) text'
      else if (c =? "#")%char then blank_scan true text'
      else if is_space c then blank_scan false text'
      else None
  end.

(** The text holds only white space and comments. *)
Definition only_blank (text : string) : bool :=
  match blank_scan false text with
  | Some _ => true
  | None => false
  end.

(** White space and comments, every comment ended by its newline. *)
Definition is_gap (text : string) : bool :=
  match blank_scan false text with
  | Some false => true
  | _ => false
  end.

(** [lexemes text tokens]: the text is the texts of [tokens] in order,
    with white space and comments before, between and behind them; a word
    runs up to a delimiter or to the end of the text. *)
Inductive lexemes : string -> list Token -> Prop :=
| lexemes_end (blank : string) :
    only_blank blank = true ->
    lexemes blank []
| lexemes_token (gap : string) (t : Token) (text : string) (tokens : list Token) :
    is_gap gap = true ->
    is_tokenizer_token t = true ->
    (is_String t = true -> at_delimiter text) ->
    lexemes text tokens ->
    lexemes (gap ++ token_text t ++ text) (t :: tokens).

(** A text with balanced braces and well-formed directives: its lexemes
    follow the directive grammar. *)
Definition well_formed_text (text : string) : Prop :=
  exists tokens, lexemes text tokens /\ well_formed tokens.

(** The number of characters [target] of [text] that stand outside any
    comment and outside any brace pair, when the text starts at nesting
    depth [depth], inside a comment or not. *)
Fixpoint count_top_text (target : ascii) (in_comment : bool) (depth : nat)
  (text : string) : nat :=
  match text with
  | EmptyString => O
  | String.String c text' =>
      if in_comment then
        count_top_text target (negb (c =? "010")%char) depth text'
      else if (c =? "#")%char then count_top_text target true depth text'
      else
        (if (depth =? 0)%nat && (c =? target)%char then 1 else 0)
        + count_top_text target false
            (if (c =? "{")%char then S depth
             else if (c =? "}")%char then pred depth
             else depth) text'
  end.

(** The top-level [';'] and the top-level ['{'] of a text. *)
Definition text_terminators (text : string) : nat :=
  count_top_text ";" false 0 text.

Definition text_groups (text : string) : nat :=
  count_top_text "{" false 0 text.

(** The grouped tokens that [parse_block] builds a directive from: its
    name, its arguments, and a semicolon or the [Group] of its body. *)
Fixpoint unparse_directive (d : Directive) : list Token :=
  match d with
  | mkDirective name args config =>
      String name :: map String args
      ++ [match config with
          | Some b => Group (flat_map unparse_directive b)
          | None => Semicolon
          end]
  end.

Definition unparse (b : Block) : list Token :=
  flat_map unparse_directive b.

(** The tokens of a text, [parse] being total ([parse_tokenize]). *)
Definition tokenize (input : string) : list Token :=
  match parse input with
  | Some tokens => tokens
  | None => []
  end.

(** * Properties *)

(** ** The runs of [main] and of the specification *)

Section Examples.

Example parse_comment :
  parse ("# comment" ++ String.String "010" "   hello world"
         ++ String.String "010" "goodbye")
  = Some [String "hello"; String "world"; String "goodbye"].
Proof. vm_compute. reflexivity. Qed.

Example parseWord_space : parseWord " " = (Some (String ""), " ").
Proof. reflexivity. Qed.

Example parseGroups_main :
  parseGroups [OpeningBrace; OpeningBrace; String "hello"; ClosingBrace;
               ClosingBrace; OpeningBrace; String "hello 2"; ClosingBrace]
  = Return (mkParseGroups
              [Group [Group [String "hello"]]; Group [String "hello 2"]] []).
Proof. vm_compute. reflexivity. Qed.

Example pipeline_main :
  pipeline "server { location / { a; b d; } }"
  = Return [mkDirective "server" []
              (Some [mkDirective "location" ["/"]
                       (Some [mkDirective "a" [] None;
                              mkDirective "b" ["d"] None])])].
Proof. vm_compute. reflexivity. Qed.

Example pipeline_listen :
  pipeline "listen 80;" = Return [mkDirective "listen" ["80"] None].
Proof. vm_compute. reflexivity. Qed.

Example pipeline_missing_brace :
  pipeline "server { listen 80" = Throw UnmatchedOpeningBrace.
Proof. vm_compute. reflexivity. Qed.

Example pipeline_double_semicolon :
  pipeline "g g ;;" = Throw ExpectedDirectiveName.
Proof. vm_compute. reflexivity. Qed.

Example pipeline_empty : pipeline "" = Return [].
Proof. reflexivity. Qed.

Example print_tokens_main :
  print_tokens [OpeningBrace; OpeningBrace; String "hello"; ClosingBrace;
                ClosingBrace; OpeningBrace; String "hello 2"; ClosingBrace]
  = "({ { 'hello' } } { 'hello 2' } )"
  /\ print_tokens [Group [Group [String "hello"]]; Group [String "hello 2"]]
     = "((('hello' ) ) ('hello 2' ) )".
Proof. split; reflexivity. Qed.

Example print_block_overflow :
  print_block [mkDirective "a" [] None] INT_MAX = None.
Proof. reflexivity. Qed.

Example print_block_main :
  print_block
    [mkDirective "server" []
       (Some [mkDirective "location" ["/"]
                (Some [mkDirective "a" [] None;
                       mkDirective "b" ["d"] None])])] 0
  = Some
      ("server {" ++ String.String "010"
         (String.String "009" "location / {") ++ String.String "010"
         (String.String "009" (String.String "009" "a ; ")) ++ String.String "010"
         (String.String "009" (String.String "009" "b d ; ")) ++ String.String "010"
         (String.String "009" "}") ++ String.String "010"
         "}" ++ String.String "010" EmptyString)%string.
Proof. vm_compute. reflexivity. Qed.

End Examples.

(** ** Outcomes *)

Section Outcomes.

Lemma bind_Return_l {A B : Type} (a : A) (k : A -> outcome B) :
  bind (Return a) k = k a.
Proof. reflexivity. Qed.

Lemma bind_Return {A B : Type} (m : outcome A) (k : A -> outcome B) (b : B) :
  bind m k = Return b -> exists a, m = Return a /\ k a = Return b.
Proof. destruct m; simpl; intros H; try discriminate. eauto. Qed.

Lemma bind_not_OutOfFuel {A B : Type} (m : outcome A) (k : A -> outcome B) :
  bind m k <> OutOfFuel -> m <> OutOfFuel.
Proof. destruct m; simpl; congruence. Qed.

End Outcomes.

(** ** The tokenizer *)

Section Tokenizer.

Lemma skipComment_length (input : string) :
  length (skipComment input) <= length input.
Proof.
  induction input as [|c input IH]; simpl; [lia|].
  destruct (c =? "010")%char; simpl; lia.
Qed.

Lemma skipWhitespace_loop_spec (fuel : nat) :
  forall input, length input < fuel ->
  exists r, skipWhitespace_loop fuel input = Some r
            /\ length r <= length input /\ at_word r.
Proof.
  induction fuel as [|fuel IH]; intros input Hlen; [lia|].
  destruct input as [|c input]; simpl.
  - exists EmptyString. simpl. auto.
  - simpl in Hlen.
    destruct ((c =? " ") || (c =? "009") || (c =? "010"))%char eqn:Hws.
    + destruct (IH input) as (r & Hr & Hle & Hw); [lia|].
      exists r. repeat split; auto.
    + destruct (c =? "#")%char eqn:Hhash.
      * pose proof (skipComment_length input) as Hc.
        destruct (skipComment input) as [|c' input''] eqn:Hskip.
        -- exists EmptyString. simpl. repeat split; auto with arith.
        -- simpl in Hc.
           destruct (IH input'') as (r & Hr & Hle & Hw); [lia|].
           exists r. repeat split; auto; lia.
      * exists (String.String c input). simpl. repeat split; auto.
        unfold is_blank. rewrite Hws, Hhash. reflexivity.
Qed.

Lemma skipWhitespace_spec (input : string) :
  exists r, skipWhitespace input = Some r
            /\ length r <= length input /\ at_word r.
Proof. apply skipWhitespace_loop_spec. lia. Qed.

Lemma skipWhitespace_terminates (input : string) :
  exists r, skipWhitespace input = Some r.
Proof.
  destruct (skipWhitespace_spec input) as (r & Hr & _). eauto.
Qed.

Lemma append_empty_r (s : string) : (s ++ EmptyString)%string = s.
Proof. induction s as [|c s IH]; simpl; [reflexivity|now rewrite IH]. Qed.

Lemma append_assoc (s1 s2 s3 : string) :
  (s1 ++ (s2 ++ s3))%string = ((s1 ++ s2) ++ s3)%string.
Proof. induction s1 as [|c s1 IH]; simpl; [reflexivity|now rewrite IH]. Qed.

(** The loop of [parseWord] returns a [String] that extends the
    accumulator, and a suffix of its input. *)
Lemma parseWord_loop_spec (input : string) :
  forall acc, exists w r,
    parseWord_loop acc input = (Some (String (acc ++ w)%string), r)
    /\ length r <= length input.
Proof.
  induction input as [|c input IH]; intros acc; simpl.
  - exists EmptyString, EmptyString. split; [|simpl; lia].
    now rewrite append_empty_r.
  - destruct ((c =? " ") || (c =? "009") || (c =? "010") || (c =? "#")
              || (c =? ";") || (c =? "{") || (c =? "}"))%char.
    + exists EmptyString, (String.String c input). split; [|simpl; lia].
      now rewrite append_empty_r.
    + destruct (IH (acc ++ String.String c EmptyString)%string) as (w & r & Hr & Hle).
      exists (String.String c w), r. split; [|lia].
      rewrite Hr. rewrite <- append_assoc. reflexivity.
Qed.

(** At the start of a word [parseWord] returns a token other than the empty
    [String] and moves the cursor. *)
Lemma parseWord_at_word (c : ascii) (input : string) :
  is_blank c = false ->
  exists w r, parseWord (String.String c input) = (Some w, r)
              /\ w <> String EmptyString /\ length r <= length input.
Proof.
  intros Hb. unfold parseWord.
  destruct (c =? ";")%char eqn:H1.
  { exists Semicolon, input. repeat split; auto; discriminate. }
  destruct (c =? "{")%char eqn:H2.
  { exists OpeningBrace, input. repeat split; auto; discriminate. }
  destruct (c =? "}")%char eqn:H3.
  { exists ClosingBrace, input. repeat split; auto; discriminate. }
  unfold is_blank in Hb. simpl.
  replace ((c =? " ") || (c =? "009") || (c =? "010") || (c =? "#")
           || (c =? ";") || (c =? "{") || (c =? "}"))%char with false
    by (rewrite Hb, H1, H2, H3; reflexivity).
  destruct (parseWord_loop_spec input (String.String c EmptyString))
    as (w & r & Hr & Hle).
  exists (String (String.String c w)), r. repeat split; auto.
  discriminate.
Qed.

Lemma parse_loop_spec (fuel : nat) :
  forall input output, length input < fuel ->
  ~ In (String EmptyString) output ->
  exists tokens, parse_loop fuel output input = Some tokens
                 /\ ~ In (String EmptyString) tokens.
Proof.
  induction fuel as [|fuel IH]; intros input output Hlen Hout; [lia|].
  destruct input as [|c0 input0]; simpl.
  - exists output. auto.
  - destruct (skipWhitespace_spec (String.String c0 input0))
      as (input1 & Hskip & Hle & Hw).
    rewrite Hskip. simpl in Hlen, Hle.
    destruct input1 as [|c input1].
    + simpl. apply IH; [simpl; lia|assumption].
    + destruct (parseWord_at_word c input1 Hw) as (w & r & Hr & Hne & Hle').
      rewrite Hr. simpl in Hle. apply IH; [lia|].
      rewrite in_app_iff. simpl. intros [H|[H|[]]]; auto.
Qed.

Lemma parse_terminates (input : string) :
  exists tokens, parse input = Some tokens.
Proof.
  destruct (parse_loop_spec (S (length input)) input []) as (t & Ht & _);
    [lia|simpl; tauto|eauto].
Qed.

End Tokenizer.

(** ** The grouper *)

Section Grouper.

Lemma parseGroups_loop_S (fuel : nat) (output input : list Token) :
  parseGroups_loop (S fuel) output input =
  match input with
  | [] => Return (mkParseGroups output input)
  | ClosingBrace :: _ => Return (mkParseGroups output input)
  | OpeningBrace :: input' =>
      p <- parseGroups_loop fuel [] input' ;;
      match rest p with
      | [] => Throw (ParsingError "No matching closing curly brace")
      | _ :: input'' =>
          parseGroups_loop fuel (output ++ [Group (content p)]) input''
      end
  | token :: input' => parseGroups_loop fuel (output ++ [token]) input'
  end.
Proof. reflexivity. Qed.

(** One more unit of fuel does not change a result that was reached. *)
Lemma parseGroups_loop_fuel_S (fuel : nat) :
  forall output input,
  parseGroups_loop fuel output input <> OutOfFuel ->
  parseGroups_loop (S fuel) output input = parseGroups_loop fuel output input.
Proof.
  induction fuel as [|fuel IH]; intros output input H; [now contradiction H|].
  remember (S fuel) as n eqn:Hn.
  rewrite Hn at 2. rewrite Hn in H. simpl in H |- *.
  destruct input as [|token input']; [reflexivity|].
  destruct token; try reflexivity; try (subst n; apply IH; exact H).
  subst n.
  pose proof (bind_not_OutOfFuel _ _ H) as H1.
  rewrite (IH _ _ H1).
  destruct (parseGroups_loop fuel [] input') as [p| |]; simpl in *; auto.
  destruct (rest p); auto.
Qed.

Lemma parseGroups_loop_fuel_le (fuel fuel' : nat) (output input : list Token) :
  fuel <= fuel' ->
  parseGroups_loop fuel output input <> OutOfFuel ->
  parseGroups_loop fuel' output input = parseGroups_loop fuel output input.
Proof.
  induction 1 as [|fuel' Hle IH]; intros H; [reflexivity|].
  rewrite parseGroups_loop_fuel_S; rewrite IH; auto.
Qed.

(** With more fuel than tokens the loop ends, and [rest] is a suffix of the
    input. *)
Lemma parseGroups_loop_enough (fuel : nat) :
  forall output input, List.length input < fuel ->
  match parseGroups_loop fuel output input with
  | Return p => List.length (rest p) <= List.length input
  | Throw _ => True
  | OutOfFuel => False
  end.
Proof.
  induction fuel as [|fuel IH]; intros output input Hlen; [lia|].
  simpl. destruct input as [|token input']; simpl; [lia|].
  simpl in Hlen.
  assert (Hleaf : forall out,
    match parseGroups_loop fuel out input' with
    | Return p => List.length (rest p) <= S (List.length input')
    | Throw _ => True
    | OutOfFuel => False
    end).
  { intros out. specialize (IH out input' ltac:(lia)).
    destruct (parseGroups_loop fuel out input'); auto. }
  destruct token; simpl; try apply Hleaf; try lia.
  pose proof (IH [] input' ltac:(lia)) as H1.
  destruct (parseGroups_loop fuel [] input') as [p| |]; simpl; auto.
  destruct (rest p) as [|t input'']; simpl in *; auto.
  pose proof (IH (output ++ [Group (content p)]) input'' ltac:(lia)) as H2.
  destruct (parseGroups_loop fuel (output ++ [Group (content p)]) input'');
    auto; lia.
Qed.

Lemma parseGroups_loop_terminates (fuel : nat) (output input : list Token) :
  List.length input < fuel ->
  parseGroups_loop fuel output input <> OutOfFuel.
Proof.
  intros Hlen H. pose proof (parseGroups_loop_enough fuel output input Hlen) as E.
  now rewrite H in E.
Qed.

Lemma parseGroups_terminates (input : list Token) :
  parseGroups input <> OutOfFuel.
Proof. apply parseGroups_loop_terminates. lia. Qed.

Lemma parseGroups_rest_length (input : list Token) (p : ParseGroups) :
  parseGroups input = Return p -> List.length (rest p) <= List.length input.
Proof.
  intros H.
  pose proof (parseGroups_loop_enough (S (List.length input)) [] input ltac:(lia)) as E.
  unfold parseGroups in H. now rewrite H in E.
Qed.

(** The tokens collected before the loop starts are a prefix of its
    [content]. *)
Lemma parseGroups_loop_output (fuel : nat) :
  forall output input,
  parseGroups_loop fuel output input =
  (p <- parseGroups_loop fuel [] input ;;
   Return (mkParseGroups (output ++ content p) (rest p))).
Proof.
  induction fuel as [|fuel IH]; intros output input; [reflexivity|].
  simpl. destruct input as [|token input']; simpl.
  - now rewrite app_nil_r.
  - assert (Hleaf : forall t inp,
      parseGroups_loop fuel (output ++ [t]) inp =
      (p <- parseGroups_loop fuel [t] inp ;;
       Return (mkParseGroups (output ++ content p) (rest p)))).
    { intros t inp. rewrite (IH (output ++ [t])), (IH [t]).
      destruct (parseGroups_loop fuel [] inp); simpl; auto.
      now rewrite <- app_assoc. }
    destruct token; simpl; auto.
    + destruct (parseGroups_loop fuel [] input') as [p| |]; simpl; auto.
      destruct (rest p); simpl; auto.
    + now rewrite app_nil_r.
Qed.

(** The loop with enough fuel, in terms of [parseGroups]. *)
Lemma parseGroups_loop_eq (fuel : nat) (output input : list Token) :
  List.length input < fuel ->
  parseGroups_loop fuel output input =
  (p <- parseGroups input ;;
   Return (mkParseGroups (output ++ content p) (rest p))).
Proof.
  intros Hlen. rewrite parseGroups_loop_output. unfold parseGroups.
  rewrite (parseGroups_loop_fuel_le (S (List.length input)) fuel);
    [reflexivity|lia|].
  apply parseGroups_loop_terminates. lia.
Qed.

(** *** The equations of [parseGroups] *)

Lemma parseGroups_nil :
  parseGroups [] = Return (mkParseGroups [] []).
Proof. reflexivity. Qed.

Lemma parseGroups_ClosingBrace (input : list Token) :
  parseGroups (ClosingBrace :: input) =
  Return (mkParseGroups [] (ClosingBrace :: input)).
Proof. reflexivity. Qed.

Lemma parseGroups_OpeningBrace (input : list Token) :
  parseGroups (OpeningBrace :: input) =
  (p <- parseGroups input ;;
   match rest p with
   | [] => Throw UnmatchedOpeningBrace
   | _ :: input'' =>
       q <- parseGroups input'' ;;
       Return (mkParseGroups (Group (content p) :: content q) (rest q))
   end).
Proof.
  unfold parseGroups at 1.
  change (List.length (OpeningBrace :: input)) with (S (List.length input)).
  rewrite parseGroups_loop_S. cbv beta iota.
  change (parseGroups_loop (S (List.length input)) [] input)
    with (parseGroups input).
  pose proof (parseGroups_rest_length input) as Hlen.
  destruct (parseGroups input) as [p| |]; [|reflexivity..].
  specialize (Hlen p eq_refl). rewrite !bind_Return_l.
  destruct (rest p) as [|t input'']; [reflexivity|].
  simpl in Hlen. apply (parseGroups_loop_eq _ [_]). lia.
Qed.

Lemma parseGroups_leaf (token : Token) (input : list Token) :
  token <> OpeningBrace -> token <> ClosingBrace ->
  parseGroups (token :: input) =
  (q <- parseGroups input ;;
   Return (mkParseGroups (token :: content q) (rest q))).
Proof.
  intros H1 H2. unfold parseGroups at 1.
  change (List.length (token :: input)) with (S (List.length input)).
  rewrite parseGroups_loop_S.
  destruct token; try congruence; cbv beta iota;
    apply (parseGroups_loop_eq _ [_]); lia.
Qed.

End Grouper.

(** ** The block builder *)

Section BlockBuilder.

Lemma tokens_size_cons (t : Token) (input : list Token) :
  tokens_size (t :: input) = token_size t + tokens_size input.
Proof. reflexivity. Qed.

Lemma tokens_size_app (input1 input2 : list Token) :
  tokens_size (input1 ++ input2) = tokens_size input1 + tokens_size input2.
Proof.
  unfold tokens_size. now rewrite map_app, list_sum_app.
Qed.

Lemma token_size_Group (content : list Token) :
  token_size (Group content) = S (tokens_size content).
Proof. reflexivity. Qed.

(** *** The argument loop *)

Lemma parse_args_Return (input : list Token) :
  forall acc args input2,
  parse_args acc input = Return (args, input2) ->
  exists ss t input3,
    args = acc ++ ss /\ input = map String ss ++ input2
    /\ input2 = t :: input3 /\ is_String t = false.
Proof.
  induction input as [|t input IH]; intros acc args input2 H; simpl in H.
  - discriminate.
  - destruct t;
      try (injection H as <- <-; eexists [], _, input;
           rewrite app_nil_r; repeat split; reflexivity).
    destruct (IH _ _ _ H) as (ss & t & input3 & -> & -> & -> & Ht).
    exists (content0 :: ss), t, input3. rewrite <- app_assoc. auto.
Qed.

Lemma parse_args_strings (ss : list string) :
  forall acc t input, is_String t = false ->
  parse_args acc (map String ss ++ t :: input) = Return (acc ++ ss, t :: input).
Proof.
  induction ss as [|s ss IH]; intros acc t input Ht; simpl.
  - rewrite app_nil_r. destruct t; try reflexivity; discriminate.
  - rewrite IH by assumption. now rewrite <- app_assoc.
Qed.

Lemma parse_args_end (ss : list string) :
  forall acc, parse_args acc (map String ss) = Throw UnterminatedDirective.
Proof. induction ss as [|s ss IH]; intros acc; simpl; auto. Qed.

Lemma parse_args_terminates (input : list Token) :
  forall acc, parse_args acc input <> OutOfFuel.
Proof.
  induction input as [|t input IH]; intros acc; simpl; [discriminate|].
  destruct t; try discriminate. apply IH.
Qed.

Lemma parse_args_size (input : list Token) acc args input2 :
  parse_args acc input = Return (args, input2) ->
  tokens_size input2 <= tokens_size input.
Proof.
  intros H. destruct (parse_args_Return _ _ _ _ H) as (ss & _ & _ & _ & -> & _).
  rewrite tokens_size_app. lia.
Qed.

(** *** Fuel *)

Lemma parse_block_loop_S (fuel : nat) (output : Block) (input : list Token) :
  parse_block_loop (S fuel) output input =
  match input with
  | [] => Return output
  | String name :: input1 =>
      r <- parse_args [] input1 ;;
      let (args, input2) := r in
      match input2 with
      | [] => Throw (ParsingError "unexpected end of input")
      | Semicolon :: input3 =>
          parse_block_loop fuel (output ++ [mkDirective name args None]) input3
      | Group content :: input3 =>
          b <- parse_block_loop fuel [] content ;;
          parse_block_loop fuel (output ++ [mkDirective name args (Some b)]) input3
      | _ => Throw (ParsingError "parse_block: directive: expected ; or {")
      end
  | _ => Throw bad_cast
  end.
Proof. reflexivity. Qed.

Lemma parse_block_loop_fuel_S (fuel : nat) :
  forall output input,
  parse_block_loop fuel output input <> OutOfFuel ->
  parse_block_loop (S fuel) output input = parse_block_loop fuel output input.
Proof.
  induction fuel as [|fuel IH]; intros output input H; [now contradiction H|].
  rewrite (parse_block_loop_S (S fuel)). rewrite parse_block_loop_S in H |- *.
  destruct input as [|t input1]; [reflexivity|].
  destruct t; try reflexivity.
  destruct (parse_args [] input1) as [[args input2]| |]; try reflexivity.
  rewrite !bind_Return_l in *.
  destruct input2 as [|t input3]; [reflexivity|].
  destruct t as [| | |s|g]; try reflexivity.
  - apply IH, H.
  - pose proof (bind_not_OutOfFuel _ _ H) as H1.
    rewrite (IH _ _ H1).
    destruct (parse_block_loop fuel [] g) as [b| |]; try reflexivity.
    rewrite !bind_Return_l in *. apply IH, H.
Qed.

Lemma parse_block_loop_fuel_le (fuel fuel' : nat) (output : Block) (input : list Token) :
  fuel <= fuel' ->
  parse_block_loop fuel output input <> OutOfFuel ->
  parse_block_loop fuel' output input = parse_block_loop fuel output input.
Proof.
  induction 1 as [|fuel' Hle IH]; intros H; [reflexivity|].
  rewrite parse_block_loop_fuel_S; rewrite IH; auto.
Qed.

Lemma parse_block_loop_terminates (fuel : nat) :
  forall output input, tokens_size input < fuel ->
  parse_block_loop fuel output input <> OutOfFuel.
Proof.
  induction fuel as [|fuel IH]; intros output input Hlen; [lia|].
  rewrite parse_block_loop_S.
  destruct input as [|t input1]; [discriminate|].
  destruct t; try discriminate.
  rewrite tokens_size_cons in Hlen. simpl token_size in Hlen.
  pose proof (parse_args_size input1 []) as Hsize.
  destruct (parse_args [] input1) as [[args input2]| |] eqn:Hargs;
    try discriminate.
  - specialize (Hsize _ _ eq_refl). rewrite bind_Return_l.
    destruct input2 as [|t input3]; [discriminate|].
    rewrite tokens_size_cons in Hsize.
    destruct t as [| | |s|g]; try discriminate.
    + apply IH. simpl token_size in Hsize. lia.
    + rewrite token_size_Group in Hsize.
      pose proof (IH [] g ltac:(lia)) as H1.
      destruct (parse_block_loop fuel [] g) as [b| |];
        try discriminate; [|contradiction].
      rewrite bind_Return_l. apply IH. lia.
  - now apply parse_args_terminates in Hargs.
Qed.

Lemma parse_block_terminates (input : list Token) :
  parse_block input <> OutOfFuel.
Proof. apply parse_block_loop_terminates. lia. Qed.

Lemma parse_block_loop_output (fuel : nat) :
  forall output input,
  parse_block_loop fuel output input =
  (b <- parse_block_loop fuel [] input ;; Return (output ++ b)).
Proof.
  induction fuel as [|fuel IH]; intros output input; [reflexivity|].
  rewrite !parse_block_loop_S.
  assert (Hd : forall d inp,
    parse_block_loop fuel (output ++ [d]) inp =
    (b <- parse_block_loop fuel ([] ++ [d]) inp ;; Return (output ++ b))).
  { intros d inp. rewrite (IH (output ++ [d])), (IH ([] ++ [d])).
    destruct (parse_block_loop fuel [] inp); simpl; auto.
    now rewrite <- app_assoc. }
  destruct input as [|t input1]; [simpl; now rewrite app_nil_r|].
  destruct t; try reflexivity.
  destruct (parse_args [] input1) as [[args input2]| |]; try reflexivity.
  rewrite !bind_Return_l.
  destruct input2 as [|t input3]; [reflexivity|].
  destruct t as [| | |s|g]; try reflexivity.
  - apply Hd.
  - destruct (parse_block_loop fuel [] g) as [b| |]; try reflexivity.
    rewrite !bind_Return_l. apply Hd.
Qed.

Lemma parse_block_loop_eq (fuel : nat) (output : Block) (input : list Token) :
  tokens_size input < fuel ->
  parse_block_loop fuel output input =
  (b <- parse_block input ;; Return (output ++ b)).
Proof.
  intros Hlen. rewrite parse_block_loop_output. unfold parse_block.
  rewrite (parse_block_loop_fuel_le (S (tokens_size input)) fuel);
    [reflexivity|lia|].
  apply parse_block_loop_terminates. lia.
Qed.

(** *** The equations of [parse_block] *)

Lemma parse_block_nil : parse_block [] = Return [].
Proof. reflexivity. Qed.

Lemma parse_block_not_String (t : Token) (input : list Token) :
  is_String t = false ->
  parse_block (t :: input) = Throw ExpectedDirectiveName.
Proof.
  intros Ht. unfold parse_block. rewrite parse_block_loop_S.
  destruct t; try reflexivity; discriminate.
Qed.

Lemma parse_block_String (name : string) (input1 : list Token) :
  parse_block (String name :: input1) =
  (r <- parse_args [] input1 ;;
   let (args, input2) := r in
   match input2 with
   | [] => Throw (ParsingError "unexpected end of input")
   | Semicolon :: input3 =>
       b <- parse_block input3 ;;
       Return (mkDirective name args None :: b)
   | Group g :: input3 =>
       body <- parse_block g ;;
       b <- parse_block input3 ;;
       Return (mkDirective name args (Some body) :: b)
   | _ => Throw ExpectedTerminatorOrBlock
   end).
Proof.
  unfold parse_block at 1.
  change (tokens_size (String name :: input1)) with (S (tokens_size input1)).
  rewrite parse_block_loop_S.
  pose proof (parse_args_size input1 []) as Hsize.
  destruct (parse_args [] input1) as [[args input2]| |]; try reflexivity.
  specialize (Hsize _ _ eq_refl). rewrite !bind_Return_l.
  destruct input2 as [|t input3]; [reflexivity|].
  rewrite tokens_size_cons in Hsize.
  destruct t as [| | |s|g]; try reflexivity.
  - apply (parse_block_loop_eq _ [_]). simpl token_size in Hsize. lia.
  - rewrite token_size_Group in Hsize.
    rewrite (parse_block_loop_eq _ [] g) by lia.
    destruct (parse_block g) as [body| |]; try reflexivity.
    rewrite !bind_Return_l. simpl app.
    apply (parse_block_loop_eq _ [_]). lia.
Qed.

Lemma parse_block_Semicolon (name : string) (ss : list string) (input : list Token) :
  parse_block (String name :: map String ss ++ Semicolon :: input) =
  (b <- parse_block input ;; Return (mkDirective name ss None :: b)).
Proof.
  rewrite parse_block_String, parse_args_strings by reflexivity.
  reflexivity.
Qed.

Lemma parse_block_Group (name : string) (ss : list string) (g input : list Token) :
  parse_block (String name :: map String ss ++ Group g :: input) =
  (body <- parse_block g ;;
   b <- parse_block input ;;
   Return (mkDirective name ss (Some body) :: b)).
Proof.
  rewrite parse_block_String, parse_args_strings by reflexivity.
  reflexivity.
Qed.

Lemma parse_block_unterminated (name : string) (ss : list string) :
  parse_block (String name :: map String ss) = Throw UnterminatedDirective.
Proof. now rewrite parse_block_String, parse_args_end. Qed.

(** A block that was built starts with a directive in one of its two
    written forms, and the rest of the block is built from the rest of the
    tokens. *)
Lemma parse_block_inv (input : list Token) (b : Block) :
  parse_block input = Return b ->
  (input = [] /\ b = [])
  \/ (exists name ss input3 b3,
        input = String name :: map String ss ++ Semicolon :: input3
        /\ parse_block input3 = Return b3
        /\ b = mkDirective name ss None :: b3)
  \/ (exists name ss g input3 body b3,
        input = String name :: map String ss ++ Group g :: input3
        /\ parse_block g = Return body
        /\ parse_block input3 = Return b3
        /\ b = mkDirective name ss (Some body) :: b3).
Proof.
  intros H. destruct input as [|t input1].
  { left. split; [reflexivity|]. now injection H. }
  right.
  destruct (is_String t) eqn:Ht;
    [|rewrite parse_block_not_String in H by assumption; discriminate].
  destruct t as [| | |name|]; try discriminate.
  rewrite parse_block_String in H.
  apply bind_Return in H. destruct H as ([args input2] & Hargs & H).
  destruct (parse_args_Return _ _ _ _ Hargs)
    as (ss & t & input3 & -> & -> & -> & Hns).
  simpl app in *.
  destruct t as [| | |s|g]; try discriminate.
  - left. apply bind_Return in H. destruct H as (b3 & H3 & [= <-]).
    exists name, ss, input3, b3. auto.
  - right. apply bind_Return in H. destruct H as (body & Hbody & H).
    apply bind_Return in H. destruct H as (b3 & H3 & [= <-]).
    exists name, ss, g, input3, body, b3. auto.
Qed.

End BlockBuilder.

(** ** Claims about the tokenizer *)

Section TokenizerClaims.

(** C6: for every input text, [parse] returns a token sequence, and no token
    of it is a [String] with empty content. *)
Theorem parse_no_empty_String (input : string) :
  exists tokens, parse input = Some tokens /\ ~ In (String EmptyString) tokens.
Proof.
  apply parse_loop_spec; [lia|simpl; tauto].
Qed.

(** C9: called at a space, a tab, a newline or a ['#'], [parseWord] returns
    a [String] with empty content and leaves the cursor where it was; and
    [skipWhitespace] never returns a cursor at such a character, which is
    what keeps the empty [String] out of the result of [parse]. *)
Theorem parseWord_at_blank (c : ascii) (input : string) :
  In c [" "; "009"; "010"; "#"]%char ->
  parseWord (String.String c input)
  = (Some (String EmptyString), String.String c input)
  /\ forall text, skipWhitespace text <> Some (String.String c input).
Proof.
  intros Hc. split.
  - simpl in Hc. destruct Hc as [<-|[<-|[<-|[<-|[]]]]]; reflexivity.
  - intros text H.
    destruct (skipWhitespace_spec text) as (r & Hr & _ & Hw).
    rewrite H in Hr. injection Hr as <-. simpl in Hw.
    simpl in Hc. destruct Hc as [<-|[<-|[<-|[<-|[]]]]]; discriminate.
Qed.

Lemma parseWord_at_blank_witness :
  In " "%char [" "; "009"; "010"; "#"]%char
  /\ parseWord " " = (Some (String ""), " ")
  /\ forall text, skipWhitespace text <> Some " ".
Proof.
  split; [simpl; auto|].
  apply (parseWord_at_blank " " ""). simpl; auto.
Defined.

End TokenizerClaims.

(** ** Nesting depth and the grouper *)

Section Scan.

Lemma scan_app (tokens1 tokens2 : list Token) :
  forall depth,
  scan depth (tokens1 ++ tokens2) =
  match scan depth tokens1 with
  | Ended depth' => scan depth' tokens2
  | Closed r => Closed (r ++ tokens2)
  end.
Proof.
  induction tokens1 as [|t tokens1 IH]; intros depth; [reflexivity|].
  destruct t; simpl; auto. destruct depth; auto.
Qed.

(** Starting deeper shifts the final depth. *)
Lemma scan_Ended_shift (tokens : list Token) :
  forall depth k n,
  scan depth tokens = Ended k -> scan (n + depth) tokens = Ended (n + k).
Proof.
  induction tokens as [|t tokens IH]; intros depth k n H.
  - simpl in *. now injection H as <-.
  - destruct t; simpl in H; try (simpl; now apply IH).
    + simpl. rewrite plus_n_Sm. now apply IH.
    + destruct depth as [|depth]; [discriminate|].
      rewrite <- plus_n_Sm. simpl. now apply IH.
Qed.

(** Starting one level deeper, the brace that closed the scan is matched
    and the scan goes on behind it. *)
Lemma scan_Closed_S (tokens : list Token) :
  forall depth r,
  scan depth tokens = Closed r -> scan (S depth) tokens = scan 0 r.
Proof.
  induction tokens as [|t tokens IH]; intros depth r H; simpl in *.
  - discriminate.
  - destruct t; auto.
    destruct depth as [|depth]; [now injection H as <-|auto].
Qed.

Lemma scan_Closed_length (tokens : list Token) :
  forall depth r,
  scan depth tokens = Closed r -> List.length r < List.length tokens.
Proof.
  induction tokens as [|t tokens IH]; intros depth r H; simpl in *.
  - discriminate.
  - destruct t; try (apply IH in H; lia).
    destruct depth as [|depth]; [injection H as <-; lia|].
    apply IH in H. lia.
Qed.

(** The outcome of [parseGroups], read off the nesting depth. *)
Lemma parseGroups_scan (tokens : list Token) :
  match scan 0 tokens with
  | Ended O => exists c, parseGroups tokens = Return (mkParseGroups c [])
  | Ended (S _) => parseGroups tokens = Throw UnmatchedOpeningBrace
  | Closed r =>
      exists c, parseGroups tokens = Return (mkParseGroups c (ClosingBrace :: r))
  end.
Proof.
  remember (List.length tokens) as n eqn:Hn.
  revert tokens Hn. induction n as [n IH] using lt_wf_ind.
  intros tokens Hn. destruct tokens as [|t tokens].
  { simpl. now exists []. }
  simpl in Hn.
  pose proof (IH (List.length tokens) ltac:(lia) tokens eq_refl) as IHt.
  assert (Hleaf : t <> OpeningBrace -> t <> ClosingBrace ->
          scan 0 (t :: tokens) = scan 0 tokens ->
          match scan 0 (t :: tokens) with
          | Ended O => exists c, parseGroups (t :: tokens) = Return (mkParseGroups c [])
          | Ended (S _) => parseGroups (t :: tokens) = Throw UnmatchedOpeningBrace
          | Closed r =>
              exists c, parseGroups (t :: tokens)
                        = Return (mkParseGroups c (ClosingBrace :: r))
          end).
  { intros H1 H2 ->. rewrite parseGroups_leaf by assumption.
    destruct (scan 0 tokens) as [[|d]|r].
    - destruct IHt as (c & ->). simpl. eauto.
    - now rewrite IHt.
    - destruct IHt as (c & ->). simpl. eauto. }
  destruct t; try (apply Hleaf; [discriminate|discriminate|reflexivity]).
  - (* OpeningBrace *)
    clear Hleaf. rewrite parseGroups_OpeningBrace.
    change (scan 0 (OpeningBrace :: tokens)) with (scan 1 tokens).
    destruct (scan 0 tokens) as [[|d]|r] eqn:Hscan.
    + pose proof (scan_Ended_shift tokens 0 0 1 Hscan) as Hs.
      simpl in Hs. rewrite Hs.
      destruct IHt as (c & ->). reflexivity.
    + pose proof (scan_Ended_shift tokens 0 (S d) 1 Hscan) as Hs.
      simpl in Hs. rewrite Hs.
      now rewrite IHt.
    + rewrite (scan_Closed_S tokens 0 r Hscan).
      destruct IHt as (c & ->). rewrite bind_Return_l. simpl rest.
      pose proof (scan_Closed_length _ _ _ Hscan) as Hlen.
      pose proof (IH (List.length r) ltac:(lia) r eq_refl) as IHr.
      destruct (scan 0 r) as [[|d]|r'].
      * destruct IHr as (c' & ->). simpl. eauto.
      * now rewrite IHr.
      * destruct IHr as (c' & ->). simpl. eauto.
  - (* ClosingBrace *)
    simpl. now exists [].
Qed.

(** Conversely, the depth read off the outcome. *)
Lemma parseGroups_Return_scan (tokens : list Token) (p : ParseGroups) :
  parseGroups tokens = Return p ->
  match rest p with
  | [] => scan 0 tokens = Ended 0
  | _ :: r => scan 0 tokens = Closed r
  end.
Proof.
  intros H. pose proof (parseGroups_scan tokens) as G.
  destruct (scan 0 tokens) as [[|d]|r].
  - destruct G as (c & G). rewrite G in H. now injection H as <-.
  - congruence.
  - destruct G as (c & G). rewrite G in H. now injection H as <-.
Qed.

End Scan.

(** ** Claims about the grouper *)

Section GrouperClaims.

Lemma parseGroups_rest_shape (tokens : list Token) (p : ParseGroups) :
  parseGroups tokens = Return p ->
  rest p = [] \/ exists r, rest p = ClosingBrace :: r.
Proof.
  intros H. pose proof (parseGroups_scan tokens) as G.
  destruct (scan 0 tokens) as [[|d]|r].
  - destruct G as (c & G). rewrite G in H. injection H as <-. now left.
  - congruence.
  - destruct G as (c & G). rewrite G in H. injection H as <-. right. now exists r.
Qed.

Lemma ParseGroups_eta (p : ParseGroups) :
  mkParseGroups (content p) (rest p) = p.
Proof. now destruct p. Qed.

(** Tokens behind the input are reached only when the loop arrives at the
    end of the input. *)
Lemma parseGroups_app (tokens : list Token) :
  forall p, parseGroups tokens = Return p ->
  forall tokens',
  parseGroups (tokens ++ tokens') =
  match rest p with
  | [] =>
      q <- parseGroups tokens' ;;
      Return (mkParseGroups (content p ++ content q) (rest q))
  | _ :: _ => Return (mkParseGroups (content p) (rest p ++ tokens'))
  end.
Proof.
  remember (List.length tokens) as n eqn:Hn.
  revert tokens Hn. induction n as [n IH] using lt_wf_ind.
  intros tokens Hn p H tokens'. destruct tokens as [|t tokens].
  { injection H as <-. simpl.
    destruct (parseGroups tokens') as [q| |]; simpl; auto.
    now rewrite ParseGroups_eta. }
  simpl in Hn.
  assert (Hleaf : t <> OpeningBrace -> t <> ClosingBrace ->
          parseGroups ((t :: tokens) ++ tokens') =
          match rest p with
          | [] =>
              q <- parseGroups tokens' ;;
              Return (mkParseGroups (content p ++ content q) (rest q))
          | _ :: _ => Return (mkParseGroups (content p) (rest p ++ tokens'))
          end).
  { intros H1 H2. rewrite parseGroups_leaf in H by assumption.
    apply bind_Return in H. destruct H as (q0 & Hq0 & [= <-]).
    simpl app. rewrite parseGroups_leaf by assumption.
    rewrite (IH (List.length tokens) ltac:(lia) tokens eq_refl q0 Hq0).
    simpl. destruct (rest q0); [|reflexivity].
    destruct (parseGroups tokens'); reflexivity. }
  destruct t; try (apply Hleaf; discriminate).
  - (* OpeningBrace *)
    clear Hleaf. rewrite parseGroups_OpeningBrace in H.
    apply bind_Return in H. destruct H as (p1 & Hp1 & H).
    pose proof (parseGroups_rest_length _ _ Hp1) as Hlen.
    destruct (rest p1) as [|t1 r1] eqn:Hrest; [discriminate|].
    apply bind_Return in H. destruct H as (q1 & Hq1 & [= <-]).
    simpl app. rewrite parseGroups_OpeningBrace.
    rewrite (IH (List.length tokens) ltac:(lia) tokens eq_refl p1 Hp1).
    rewrite Hrest, bind_Return_l. cbn [rest content app]. simpl in Hlen.
    rewrite (IH (List.length r1) ltac:(lia) r1 eq_refl q1 Hq1).
    simpl. destruct (rest q1); [|reflexivity].
    destruct (parseGroups tokens'); reflexivity.
  - (* ClosingBrace *)
    injection H as <-. reflexivity.
Qed.

(** C10: whenever the loop of [parseGroups] returns, in the top-level call
    or in a recursive one, whatever was collected before, [rest] is at the
    end of the tokens or at a [ClosingBrace]. *)
Theorem parseGroups_loop_rest (fuel : nat) :
  forall (output input : list Token) (p : ParseGroups),
  parseGroups_loop fuel output input = Return p ->
  rest p = [] \/ exists r, rest p = ClosingBrace :: r.
Proof.
  induction fuel as [|fuel IH]; intros output input p H; [discriminate|].
  rewrite parseGroups_loop_S in H.
  destruct input as [|t input'].
  { injection H as <-. now left. }
  destruct t; try (now apply IH in H).
  - apply bind_Return in H. destruct H as (p1 & _ & H).
    destruct (rest p1); [discriminate|]. now apply IH in H.
  - injection H as <-. right. now exists input'.
Qed.

Lemma parseGroups_loop_rest_witness :
  parseGroups_loop 4 [] [String "a"; ClosingBrace; String "b"]
  = Return (mkParseGroups [String "a"] [ClosingBrace; String "b"])
  /\ (rest (mkParseGroups [String "a"] [ClosingBrace; String "b"]) = []
      \/ exists r, rest (mkParseGroups [String "a"] [ClosingBrace; String "b"])
                   = ClosingBrace :: r).
Proof.
  split; [reflexivity|].
  apply (parseGroups_loop_rest 4 [] [String "a"; ClosingBrace; String "b"]).
  reflexivity.
Defined.

(** C1, as the specification states it, does not hold: at a closing brace
    with no opening brace before it the top-level call throws nothing; it
    returns, and its cursor is not at the end of the tokens. *)
Lemma stray_ClosingBrace_counterexample :
  scan 0 [] = Ended 0
  /\ (forall e,
        parseGroups ([] ++ ClosingBrace :: [String "a"; Semicolon]) <> Throw e)
  /\ exists p,
       parseGroups ([] ++ ClosingBrace :: [String "a"; Semicolon]) = Return p
       /\ rest p <> [].
Proof.
  split; [reflexivity|]. split.
  - intros e. vm_compute. discriminate.
  - eexists. split; [vm_compute; reflexivity|]. simpl. discriminate.
Qed.

(** C1, amended: when a closing brace stands at the top level with no
    opening brace before it ([pre] returns to depth 0 without closing more
    than it opened), the top-level call returns without an error; its
    [content] is the grouping of the tokens before that brace and its [rest]
    is at that brace. *)
Theorem parseGroups_stray_ClosingBrace (pre suf : list Token) :
  scan 0 pre = Ended 0 ->
  exists c,
    parseGroups pre = Return (mkParseGroups c [])
    /\ parseGroups (pre ++ ClosingBrace :: suf)
       = Return (mkParseGroups c (ClosingBrace :: suf)).
Proof.
  intros Hpre. pose proof (parseGroups_scan pre) as G. rewrite Hpre in G.
  destruct G as (c & G). exists c. split; [assumption|].
  rewrite (parseGroups_app pre _ G). simpl.
  now rewrite app_nil_r.
Qed.

Lemma parseGroups_stray_ClosingBrace_witness :
  scan 0 [OpeningBrace; String "a"; ClosingBrace] = Ended 0
  /\ exists c,
       parseGroups [OpeningBrace; String "a"; ClosingBrace]
       = Return (mkParseGroups c [])
       /\ parseGroups ([OpeningBrace; String "a"; ClosingBrace]
                       ++ ClosingBrace :: [String "b"])
          = Return (mkParseGroups c (ClosingBrace :: [String "b"])).
Proof.
  split; [reflexivity|].
  apply (parseGroups_stray_ClosingBrace
           [OpeningBrace; String "a"; ClosingBrace] [String "b"]).
  reflexivity.
Defined.

(** C3: when the grouper comes to an opening brace (the tokens [pre] before
    it never close more than they opened) and the recursive call on the
    tokens behind it returns because the tokens ended ([rest] at the end),
    the top-level call throws [UnmatchedOpeningBrace]. *)
Theorem parseGroups_unmatched_OpeningBrace
  (pre suf : list Token) (depth : nat) (p : ParseGroups) :
  scan 0 pre = Ended depth ->
  parseGroups suf = Return p ->
  rest p = [] ->
  parseGroups (pre ++ OpeningBrace :: suf) = Throw UnmatchedOpeningBrace.
Proof.
  intros Hpre Hsuf Hrest.
  pose proof (parseGroups_Return_scan suf p Hsuf) as Hs. rewrite Hrest in Hs.
  pose proof (scan_Ended_shift suf 0 0 (S depth) Hs) as Hshift.
  pose proof (parseGroups_scan (pre ++ OpeningBrace :: suf)) as G.
  rewrite scan_app, Hpre in G. simpl scan in G.
  rewrite Nat.add_0_r in Hshift. rewrite Hshift in G. exact G.
Qed.

Lemma parseGroups_unmatched_OpeningBrace_witness :
  scan 0 [String "a"; OpeningBrace; String "b"; Semicolon] = Ended 1
  /\ parseGroups [String "c"] = Return (mkParseGroups [String "c"] [])
  /\ rest (mkParseGroups [String "c"] []) = []
  /\ parseGroups ([String "a"; OpeningBrace; String "b"; Semicolon]
                  ++ OpeningBrace :: [String "c"])
     = Throw UnmatchedOpeningBrace.
Proof.
  split; [reflexivity|]. split; [reflexivity|]. split; [reflexivity|].
  apply (parseGroups_unmatched_OpeningBrace
           [String "a"; OpeningBrace; String "b"; Semicolon] [String "c"] 1
           (mkParseGroups [String "c"] [])); reflexivity.
Defined.

(** C5: when the grouper succeeds on a sequence of tokenizer tokens, no
    brace is left in its [content] at any depth, and writing every [Group]
    of the [content] back between one opening and one closing brace gives
    the tokens that were read: each [Group] stands for one matched pair. *)
Theorem parseGroups_groups_matched_braces (tokens : list Token) :
  forall p,
  parseGroups tokens = Return p ->
  forallb is_flat tokens = true ->
  forallb brace_free (content p) = true
  /\ tokens = ungroup (content p) ++ rest p.
Proof.
  remember (List.length tokens) as n eqn:Hn.
  revert tokens Hn. induction n as [n IH] using lt_wf_ind.
  intros tokens Hn p H Hflat. destruct tokens as [|t tokens].
  { injection H as <-. auto. }
  simpl in Hn, Hflat. apply andb_true_iff in Hflat. destruct Hflat as [Ht Hflat].
  assert (Hleaf : t <> OpeningBrace -> t <> ClosingBrace ->
          forallb brace_free (content p) = true
          /\ t :: tokens = ungroup (content p) ++ rest p).
  { intros H1 H2. rewrite parseGroups_leaf in H by assumption.
    apply bind_Return in H. destruct H as (q & Hq & [= <-]).
    destruct (IH (List.length tokens) ltac:(lia) tokens eq_refl q Hq Hflat)
      as [Hb Heq].
    cbn [content rest forallb]. rewrite Hb.
    destruct t; try discriminate; try congruence;
      split; try reflexivity; simpl; now rewrite <- Heq. }
  destruct t; try (apply Hleaf; discriminate).
  - (* OpeningBrace *)
    clear Hleaf. rewrite parseGroups_OpeningBrace in H.
    apply bind_Return in H. destruct H as (p1 & Hp1 & H).
    pose proof (parseGroups_rest_length _ _ Hp1) as Hlen.
    destruct (IH (List.length tokens) ltac:(lia) tokens eq_refl p1 Hp1 Hflat)
      as [Hb1 Heq1].
    destruct (parseGroups_rest_shape _ _ Hp1) as [Hr|(r1 & Hr)];
      rewrite Hr in *; [discriminate|].
    apply bind_Return in H. destruct H as (q & Hq & [= <-]).
    assert (Hflat1 : forallb is_flat r1 = true).
    { rewrite Heq1, forallb_app in Hflat. simpl in Hflat.
      now apply andb_true_iff in Hflat. }
    simpl in Hlen.
    destruct (IH (List.length r1) ltac:(lia) r1 eq_refl q Hq Hflat1)
      as [Hb Heq].
    cbn [content rest forallb brace_free]. rewrite Hb1, Hb. split; [reflexivity|].
    rewrite Heq1 at 1. rewrite Heq at 1.
    change (ungroup (Group (content p1) :: content q))
      with ((OpeningBrace :: ungroup (content p1) ++ [ClosingBrace])
            ++ ungroup (content q)).
    simpl. now rewrite <- !app_assoc.
  - (* ClosingBrace *)
    injection H as <-. auto.
Qed.

Lemma parseGroups_groups_matched_braces_witness :
  parseGroups [String "a"; OpeningBrace; String "b"; Semicolon; ClosingBrace]
  = Return (mkParseGroups [String "a"; Group [String "b"; Semicolon]] [])
  /\ forallb is_flat
       [String "a"; OpeningBrace; String "b"; Semicolon; ClosingBrace] = true
  /\ forallb brace_free [String "a"; Group [String "b"; Semicolon]] = true
  /\ [String "a"; OpeningBrace; String "b"; Semicolon; ClosingBrace]
     = ungroup [String "a"; Group [String "b"; Semicolon]] ++ [].
Proof.
  split; [reflexivity|]. split; [reflexivity|].
  apply (parseGroups_groups_matched_braces
           [String "a"; OpeningBrace; String "b"; Semicolon; ClosingBrace]
           (mkParseGroups [String "a"; Group [String "b"; Semicolon]] []));
    reflexivity.
Defined.

End GrouperClaims.

(** ** Claims about the block builder *)

Section BlockBuilderClaims.

(** Tokens behind a sequence of complete directives are read as a block of
    their own. *)
Lemma parse_block_app (input : list Token) :
  forall b, parse_block input = Return b ->
  forall input',
  parse_block (input ++ input') =
  (b' <- parse_block input' ;; Return (b ++ b')).
Proof.
  remember (List.length input) as n eqn:Hn.
  revert input Hn. induction n as [n IH] using lt_wf_ind.
  intros input Hn b H input'.
  destruct (parse_block_inv input b H)
    as [[-> ->]
       |[(name & ss & input3 & b3 & -> & H3 & ->)
        |(name & ss & g & input3 & body & b3 & -> & Hg & H3 & ->)]].
  - simpl. now destruct (parse_block input').
  - simpl app. rewrite <- app_assoc. simpl app.
    rewrite parse_block_Semicolon.
    rewrite (IH (List.length input3)) with (b := b3); auto.
    + now destruct (parse_block input').
    + subst n. simpl. rewrite length_app. simpl. lia.
  - simpl app. rewrite <- app_assoc. simpl app.
    rewrite parse_block_Group, Hg, bind_Return_l.
    rewrite (IH (List.length input3)) with (b := b3); auto.
    + now destruct (parse_block input').
    + subst n. simpl. rewrite length_app. simpl. lia.
Qed.

(** C2: where the builder expects a name (behind any sequence [pre] of
    complete directives) and the next token is not a [String] (a semicolon,
    a brace or a [Group]), [parse_block] throws [ExpectedDirectiveName], the
    [std::bad_cast] of the cast of the name; and a block that fails so
    inside the [Group] of a directive makes the enclosing block fail so. *)
Theorem parse_block_expected_name (pre : list Token) (b : Block) :
  parse_block pre = Return b ->
  (forall t rest,
     is_String t = false ->
     parse_block (pre ++ t :: rest) = Throw ExpectedDirectiveName)
  /\ (forall name ss g rest,
        parse_block g = Throw ExpectedDirectiveName ->
        parse_block (pre ++ String name :: map String ss ++ Group g :: rest)
        = Throw ExpectedDirectiveName).
Proof.
  intros Hpre. split.
  - intros t rest Ht. rewrite (parse_block_app pre b Hpre).
    now rewrite parse_block_not_String.
  - intros name ss g rest Hg. rewrite (parse_block_app pre b Hpre).
    now rewrite parse_block_Group, Hg.
Qed.

Lemma parse_block_expected_name_witness :
  parse_block [String "a"; String "b"; Semicolon]
  = Return [mkDirective "a" ["b"] None]
  /\ parse_block ([String "a"; String "b"; Semicolon] ++ Semicolon :: [])
     = Throw ExpectedDirectiveName.
Proof.
  split; [reflexivity|].
  apply (parse_block_expected_name
           [String "a"; String "b"; Semicolon] [mkDirective "a" ["b"] None]);
    reflexivity.
Defined.

(** C7: every directive [d] of a block that [parse_block] returns was
    written as its name, its arguments and one terminator token, and exactly
    one of the two holds: the terminator is a semicolon and [d] has no body,
    or the terminator is a [Group] and the body of [d] is the block built
    from that group. *)
Theorem parse_block_body_or_semicolon
  (input : list Token) (b1 : Block) (d : Directive) (b2 : Block) :
  parse_block input = Return (b1 ++ d :: b2) ->
  exists pre terminator post,
    input = pre ++ String (name d) :: map String (args d) ++ terminator :: post
    /\ parse_block pre = Return b1
    /\ parse_block post = Return b2
    /\ is_Semicolon terminator = negb (has_body d)
    /\ ((terminator = Semicolon /\ config d = None)
        \/ (exists g body,
              terminator = Group g
              /\ parse_block g = Return body
              /\ config d = Some body)).
Proof.
  revert input. induction b1 as [|d1 b1 IH]; intros input H.
  - destruct (parse_block_inv input _ H)
      as [[_ [=]]
         |[(name & ss & input3 & b3 & -> & H3 & [= -> ->])
          |(name & ss & g & input3 & body & b3 & -> & Hg & H3 & [= -> ->])]].
    + exists [], Semicolon, input3. simpl. repeat split; auto.
    + exists [], (Group g), input3. simpl. repeat split; auto.
      right. exists g, body. auto.
  - destruct (parse_block_inv input _ H)
      as [[_ [=]]
         |[(name & ss & input3 & b3 & -> & H3 & [= -> <-])
          |(name & ss & g & input3 & body & b3 & -> & Hg & H3 & [= -> <-])]].
    + destruct (IH _ H3) as (pre & t & post & -> & Hpre & Hpost & Hx & Ht).
      exists (String name :: map String ss ++ Semicolon :: pre), t, post.
      repeat split; auto.
      * simpl. now rewrite <- app_assoc.
      * now rewrite parse_block_Semicolon, Hpre.
    + destruct (IH _ H3) as (pre & t & post & -> & Hpre & Hpost & Hx & Ht).
      exists (String name :: map String ss ++ Group g :: pre), t, post.
      repeat split; auto.
      * simpl. now rewrite <- app_assoc.
      * now rewrite parse_block_Group, Hg, Hpre.
Qed.

Lemma parse_block_body_or_semicolon_witness :
  parse_block [String "a"; String "b"; Semicolon;
               String "c"; Group [String "d"; Semicolon]]
  = Return ([mkDirective "a" ["b"] None]
            ++ mkDirective "c" [] (Some [mkDirective "d" [] None]) :: [])
  /\ exists pre terminator post,
       [String "a"; String "b"; Semicolon;
        String "c"; Group [String "d"; Semicolon]]
       = pre ++ String "c" :: map String [] ++ terminator :: post
       /\ parse_block pre = Return [mkDirective "a" ["b"] None]
       /\ parse_block post = Return []
       /\ is_Semicolon terminator = false
       /\ ((terminator = Semicolon /\ Some [mkDirective "d" [] None] = None)
           \/ (exists g body,
                 terminator = Group g
                 /\ parse_block g = Return body
                 /\ Some [mkDirective "d" [] None] = Some body)).
Proof.
  split; [reflexivity|].
  apply (parse_block_body_or_semicolon
           [String "a"; String "b"; Semicolon;
            String "c"; Group [String "d"; Semicolon]]
           [mkDirective "a" ["b"] None]
           (mkDirective "c" [] (Some [mkDirective "d" [] None])) []).
  reflexivity.
Defined.

End BlockBuilderClaims.

(** ** The pipeline on well-formed input *)

Section Pipeline.

Lemma parseGroups_strings (ss : list string) (tokens : list Token) :
  parseGroups (map String ss ++ tokens) =
  (q <- parseGroups tokens ;;
   Return (mkParseGroups (map String ss ++ content q) (rest q))).
Proof.
  induction ss as [|s ss IH]; simpl.
  - destruct (parseGroups tokens) as [q| |]; simpl; auto.
    now rewrite ParseGroups_eta.
  - rewrite parseGroups_leaf by discriminate. rewrite IH.
    now destruct (parseGroups tokens).
Qed.

Lemma count_top_strings (f : Token -> bool) (depth : nat) (ss : list string)
  (tokens : list Token) :
  (forall s, (depth =? 0)%nat && f (String s) = false) ->
  count_top f depth (map String ss ++ tokens) = count_top f depth tokens.
Proof.
  intros Hf. induction ss as [|s ss IH]; simpl; [reflexivity|].
  now rewrite Hf, IH.
Qed.

(** Below the top level a well-formed block counts for nothing and leaves
    the depth as it was. *)
Lemma count_top_well_formed (f : Token -> bool) (body : list Token) :
  well_formed body ->
  forall depth tokens,
  count_top f (S depth) (body ++ tokens) = count_top f (S depth) tokens.
Proof.
  induction 1 as [|name args tail Htail IHrest
                  |name args inner tail Hinner IHinner Htail IHrest];
    intros depth tokens.
  - reflexivity.
  - simpl app. rewrite <- app_assoc. simpl app.
    cbn [count_top Nat.eqb andb]. rewrite count_top_strings by reflexivity.
    cbn [count_top Nat.eqb andb]. apply IHrest.
  - simpl app. rewrite <- app_assoc. simpl app.
    cbn [count_top Nat.eqb andb]. rewrite count_top_strings by reflexivity.
    cbn [count_top Nat.eqb andb]. rewrite <- app_assoc. simpl app.
    rewrite IHinner. cbn [count_top Nat.eqb andb Nat.pred]. apply IHrest.
Qed.

(** On a well-formed token sequence the grouper arrives at the end of the
    tokens and the builder returns one directive for each top-level
    terminator and each top-level group. *)
Lemma well_formed_parse_block (tokens : list Token) :
  well_formed tokens ->
  exists g b,
    parseGroups tokens = Return (mkParseGroups g [])
    /\ parse_block g = Return b
    /\ List.length b = top_level_terminators tokens + top_level_groups tokens.
Proof.
  unfold top_level_terminators, top_level_groups.
  induction 1 as [|name args tail Htail IHrest
                  |name args inner tail Hinner IHinner Htail IHrest].
  - exists [], []. auto.
  - destruct IHrest as (g & b & Hg & Hb & Hlen).
    exists (String name :: map String args ++ Semicolon :: g),
           (mkDirective name args None :: b).
    split; [|split].
    + rewrite parseGroups_leaf, parseGroups_strings by discriminate.
      rewrite parseGroups_leaf, Hg by discriminate. reflexivity.
    + now rewrite parse_block_Semicolon, Hb.
    + cbn [count_top Nat.eqb andb is_Semicolon is_OpeningBrace].
      rewrite !count_top_strings by reflexivity.
      cbn [count_top Nat.eqb andb is_Semicolon is_OpeningBrace].
      simpl List.length. lia.
  - destruct IHrest as (g & b & Hg & Hb & Hlen).
    destruct IHinner as (gi & bi & Hgi & Hbi & _).
    exists (String name :: map String args ++ Group gi :: g),
           (mkDirective name args (Some bi) :: b).
    split; [|split].
    + rewrite parseGroups_leaf, parseGroups_strings by discriminate.
      rewrite parseGroups_OpeningBrace.
      rewrite (parseGroups_app inner _ Hgi). cbn [rest content].
      rewrite parseGroups_ClosingBrace, !bind_Return_l. cbn [rest content].
      rewrite Hg, app_nil_r. reflexivity.
    + now rewrite parse_block_Group, Hbi, Hb.
    + cbn [count_top Nat.eqb andb is_Semicolon is_OpeningBrace].
      rewrite !count_top_strings by reflexivity.
      cbn [count_top Nat.eqb andb is_Semicolon is_OpeningBrace].
      rewrite !count_top_well_formed by assumption.
      cbn [count_top Nat.eqb andb is_Semicolon is_OpeningBrace Nat.pred].
      simpl List.length. lia.
Qed.

(** C8: the pipeline on the text ["server { listen 80; }"] returns a block
    of one directive, named ["server"], without arguments, whose body is a
    block of one directive, named ["listen"], with the one argument ["80"]
    and without a body. *)
Theorem pipeline_server_listen :
  pipeline "server { listen 80; }"
  = Return [mkDirective "server" []
              (Some [mkDirective "listen" ["80"] None])].
Proof. vm_compute. reflexivity. Qed.

Lemma pipeline_terminates (input : string) :
  pipeline input <> OutOfFuel.
Proof.
  unfold pipeline. destruct (parse_terminates input) as (tokens & ->).
  pose proof (parseGroups_terminates tokens) as H.
  destruct (parseGroups tokens) as [g| |]; simpl; try congruence.
  apply parse_block_terminates.
Qed.

End Pipeline.

(** * Further properties of the code *)

(** ** Comments and white space *)

Section Skipping.

Lemma is_delimiter_blank (c : ascii) :
  is_delimiter c
  = (is_blank c || (c =? ";") || (c =? "{") || (c =? "}"))%char.
Proof. reflexivity. Qed.

Lemma is_blank_space (c : ascii) :
  is_blank c = (is_space c || (c =? "#"))%char.
Proof. reflexivity. Qed.

Lemma skipComment_decompose (input : string) :
  exists skipped,
    input = (skipped ++ skipComment input)%string
    /\ ~ In "010"%char (list_ascii_of_string skipped)
    /\ (skipComment input = EmptyString
        \/ exists r, skipComment input = String.String "010" r).
Proof.
  induction input as [|c input (skipped & Heq & Hno & Hres)]; simpl.
  - exists EmptyString. simpl. auto.
  - destruct (c =? "010")%char eqn:Hc.
    + apply Ascii.eqb_eq in Hc. subst c.
      exists EmptyString. simpl. repeat split; auto. right. now exists input.
    + apply Ascii.eqb_neq in Hc.
      exists (String.String c skipped). simpl. repeat split; auto.
      * now rewrite <- Heq.
      * intros [H|H]; [congruence|auto].
Qed.

(** X1: [skipComment] drops characters up to the first newline, which it
    leaves in place: the input is the dropped characters followed by the
    result, no dropped character is a newline, and the result is empty or
    starts with a newline. *)
Theorem skipComment_split (input : string) :
  exists skipped,
    input = (skipped ++ skipComment input)%string
    /\ ~ In "010"%char (list_ascii_of_string skipped)
    /\ (skipComment input = EmptyString
        \/ exists r, skipComment input = String.String "010" r).
Proof. exact (skipComment_decompose input). Qed.

Lemma skipComment_app_newline (s s2 : string) :
  skipComment (s ++ String.String "010" s2) =
  match skipComment s with
  | EmptyString => String.String "010" s2
  | String.String c r => String.String c (r ++ String.String "010" s2)
  end.
Proof.
  induction s as [|c s IH]; simpl; [reflexivity|].
  destruct (c =? "010")%char; [reflexivity|apply IH].
Qed.

(** The loop of [skipWhitespace] does not depend on the fuel, once there
    is enough of it. *)
Lemma skipWhitespace_loop_fuel (fuel1 : nat) :
  forall fuel2 input,
  length input < fuel1 -> length input < fuel2 ->
  skipWhitespace_loop fuel1 input = skipWhitespace_loop fuel2 input.
Proof.
  induction fuel1 as [|fuel1 IH]; intros fuel2 input H1 H2; [lia|].
  destruct fuel2 as [|fuel2]; [lia|].
  destruct input as [|c input]; [reflexivity|]. simpl in *.
  destruct ((c =? " ") || (c =? "009") || (c =? "010"))%char.
  - apply IH; lia.
  - destruct (c =? "#")%char; [|reflexivity].
    pose proof (skipComment_length input) as Hc.
    destruct (skipComment input) as [|c' input'']; [reflexivity|].
    simpl in Hc. apply IH; lia.
Qed.

Lemma skipWhitespace_loop_S (fuel : nat) (input : string) :
  skipWhitespace_loop (S fuel) input =
  match input with
  | EmptyString => Some input
  | String.String c input' =>
      if is_space c then skipWhitespace_loop fuel input'
      else if (c =? "#")%char then
        match skipComment input' with
        | EmptyString => Some EmptyString
        | String.String _ input'' => skipWhitespace_loop fuel input''
        end
      else Some input
  end.
Proof. reflexivity. Qed.

(** *** The equations of [skipWhitespace] *)

Lemma skipWhitespace_empty : skipWhitespace EmptyString = Some EmptyString.
Proof. reflexivity. Qed.

Lemma skipWhitespace_space (c : ascii) (input : string) :
  is_space c = true ->
  skipWhitespace (String.String c input) = skipWhitespace input.
Proof.
  intros Hc. unfold skipWhitespace at 1.
  change (length (String.String c input)) with (S (length input)).
  rewrite skipWhitespace_loop_S, Hc.
  apply skipWhitespace_loop_fuel; lia.
Qed.

Lemma skipWhitespace_comment (input : string) :
  skipWhitespace (String.String "#" input) =
  match skipComment input with
  | EmptyString => Some EmptyString
  | String.String _ input'' => skipWhitespace input''
  end.
Proof.
  unfold skipWhitespace at 1.
  change (length (String.String "#" input)) with (S (length input)).
  rewrite skipWhitespace_loop_S. cbn [is_space Ascii.eqb Bool.eqb orb].
  pose proof (skipComment_length input) as Hc.
  destruct (skipComment input) as [|c' input'']; [reflexivity|].
  simpl in Hc. apply skipWhitespace_loop_fuel; lia.
Qed.

Lemma skipWhitespace_at_word (input : string) :
  at_word input -> skipWhitespace input = Some input.
Proof.
  destruct input as [|c input]; [reflexivity|]. simpl. intros Hc.
  unfold skipWhitespace.
  change (length (String.String c input)) with (S (length input)).
  rewrite skipWhitespace_loop_S. rewrite is_blank_space in Hc.
  apply orb_false_iff in Hc. destruct Hc as [-> ->]. reflexivity.
Qed.

Lemma is_blank_cases (c : ascii) :
  is_space c = true \/ c = "#"%char \/ is_blank c = false.
Proof.
  rewrite is_blank_space. destruct (is_space c); [now left|].
  destruct (c =? "#")%char eqn:Hc; [|now right; right].
  right. left. now apply Ascii.eqb_eq.
Qed.

Lemma skipWhitespace_suffix (input : string) :
  forall r, skipWhitespace input = Some r ->
  exists skipped, input = (skipped ++ r)%string.
Proof.
  remember (length input) as n eqn:Hn. revert input Hn.
  induction n as [n IH] using lt_wf_ind. intros input Hn r H.
  destruct input as [|c input].
  { injection H as <-. now exists EmptyString. }
  simpl in Hn. destruct (is_blank_cases c) as [Hc|[->|Hc]].
  - rewrite skipWhitespace_space in H by assumption.
    destruct (IH (length input) ltac:(lia) input eq_refl r H) as (sk & ->).
    now exists (String.String c sk).
  - rewrite skipWhitespace_comment in H.
    destruct (skipComment_decompose input) as (sk & Heq & _ & _).
    pose proof (skipComment_length input) as Hlen.
    destruct (skipComment input) as [|c' input''].
    + injection H as <-. exists (String.String "#" input).
      simpl. now rewrite append_empty_r.
    + simpl in Hlen.
      destruct (IH (length input'') ltac:(lia) input'' eq_refl r H) as (sk' & ->).
      exists (String.String "#" (sk ++ String.String c' sk')). simpl.
      rewrite Heq at 1. f_equal. now rewrite <- append_assoc.
  - rewrite skipWhitespace_at_word in H by exact Hc.
    injection H as <-. now exists EmptyString.
Qed.

(** X2: [skipWhitespace] returns a suffix of its input that is empty or
    starts with a character other than space, tab, newline and ['#'], and
    a second call on that result (as [main] makes) changes nothing. *)
Theorem skipWhitespace_idempotent (input : string) :
  exists skipped r,
    skipWhitespace input = Some r
    /\ input = (skipped ++ r)%string
    /\ at_word r
    /\ skipWhitespace r = Some r.
Proof.
  destruct (skipWhitespace_spec input) as (r & Hr & _ & Hw).
  destruct (skipWhitespace_suffix input r Hr) as (skipped & Heq).
  exists skipped, r. repeat split; auto.
  now apply skipWhitespace_at_word.
Qed.


End Skipping.

(** ** Words *)

Section Words.

Lemma parseWord_loop_split (input : string) :
  forall acc, exists w r,
    parseWord_loop acc input = (Some (String (acc ++ w)%string), r)
    /\ input = (w ++ r)%string
    /\ no_delimiter w = true
    /\ at_delimiter r.
Proof.
  induction input as [|c input IH]; intros acc.
  - exists EmptyString, EmptyString. simpl. rewrite append_empty_r. auto.
  - simpl. fold (is_delimiter c). destruct (is_delimiter c) eqn:Hc.
    + exists EmptyString, (String.String c input). simpl.
      rewrite append_empty_r. auto.
    + destruct (IH (acc ++ String.String c EmptyString)%string)
        as (w & r & Hr & Heq & Hw & Hd).
      exists (String.String c w), r. simpl. rewrite Hc, Hw.
      rewrite Hr, <- append_assoc, <- Heq. auto.
Qed.

(** The loop reads a run of characters that are no delimiters up to a
    delimiter or the end. *)
Lemma parseWord_loop_word (w : string) :
  forall acc s,
  no_delimiter w = true -> at_delimiter s ->
  parseWord_loop acc (w ++ s) = (Some (String (acc ++ w)%string), s).
Proof.
  induction w as [|c w IH]; intros acc s Hw Hs; simpl.
  - rewrite append_empty_r. destruct s as [|c s]; [reflexivity|].
    simpl in Hs. simpl. fold (is_delimiter c). now rewrite Hs.
  - simpl in Hw. apply andb_true_iff in Hw. destruct Hw as [Hc Hw].
    apply negb_true_iff in Hc. fold (is_delimiter c). rewrite Hc.
    rewrite IH by assumption. now rewrite <- append_assoc.
Qed.

Lemma parseWord_word (w s : string) :
  is_word w = true -> at_delimiter s ->
  parseWord (w ++ s) = (Some (String w), s).
Proof.
  intros Hw Hs. destruct w as [|c w]; [discriminate|].
  simpl in Hw. pose proof Hw as Hw'.
  apply andb_true_iff in Hw. destruct Hw as [Hc _].
  apply negb_true_iff in Hc. rewrite is_delimiter_blank in Hc.
  apply orb_false_iff in Hc. destruct Hc as [Hc H3].
  apply orb_false_iff in Hc. destruct Hc as [Hc H2].
  apply orb_false_iff in Hc. destruct Hc as [_ H1].
  change ((String.String c w ++ s)%string) with (String.String c (w ++ s)).
  unfold parseWord. rewrite H1, H2, H3.
  change (String.String c (w ++ s)) with ((String.String c w ++ s)%string).
  now rewrite parseWord_loop_word.
Qed.

Lemma parseWord_None (input : string) :
  fst (parseWord input) = None <-> input = EmptyString.
Proof.
  split; [|now intros ->].
  destruct input as [|c input]; [reflexivity|]. unfold parseWord.
  destruct (c =? ";")%char; [discriminate|].
  destruct (c =? "{")%char; [discriminate|].
  destruct (c =? "}")%char; [discriminate|].
  destruct (parseWord_loop_split (String.String c input) EmptyString)
    as (w & r & -> & _). discriminate.
Qed.

(** X3: [parseWord] returns the null pointer exactly at the end of the
    input. *)
Theorem parseWord_null (input : string) :
  fst (parseWord input) = None <-> input = EmptyString.
Proof. exact (parseWord_None input). Qed.

Lemma parseWord_Some (input : string) (t : Token) (r : string) :
  parseWord input = (Some t, r) ->
  input = (token_text t ++ r)%string
  /\ is_flat t = true
  /\ match t with
     | String content => no_delimiter content = true /\ at_delimiter r
     | _ => True
     end.
Proof.
  intros H. destruct input as [|c input]; [discriminate|].
  unfold parseWord in H.
  destruct (c =? ";")%char eqn:H1.
  { apply Ascii.eqb_eq in H1. injection H as <- <-. subst c. auto. }
  destruct (c =? "{")%char eqn:H2.
  { apply Ascii.eqb_eq in H2. injection H as <- <-. subst c. auto. }
  destruct (c =? "}")%char eqn:H3.
  { apply Ascii.eqb_eq in H3. injection H as <- <-. subst c. auto. }
  destruct (parseWord_loop_split (String.String c input) EmptyString)
    as (w & r' & Hr & Heq & Hw & Hd).
  rewrite Hr in H. injection H as <- <-. simpl. auto.
Qed.

(** X4: [parseWord] moves the cursor over exactly the text of the token it
    returns; the token is never a [Group]; the content of a [String] holds
    no delimiter and ends at a delimiter or at the end of the input. *)
Theorem parseWord_text (input : string) (t : Token) (r : string) :
  parseWord input = (Some t, r) ->
  input = (token_text t ++ r)%string
  /\ is_flat t = true
  /\ match t with
     | String content => no_delimiter content = true /\ at_delimiter r
     | _ => True
     end.
Proof. exact (parseWord_Some input t r). Qed.

Lemma parseWord_text_witness :
  parseWord "listen 80;" = (Some (String "listen"), " 80;")
  /\ "listen 80;" = (token_text (String "listen") ++ " 80;")%string
  /\ is_flat (String "listen") = true
  /\ no_delimiter "listen" = true /\ at_delimiter " 80;".
Proof.
  split; [reflexivity|].
  apply (parseWord_text "listen 80;" (String "listen") " 80;"). reflexivity.
Defined.

End Words.

(** ** The loop of [parse] *)

Section Tokenize.

Lemma parse_loop_S (fuel : nat) (output : list Token) (input : string) :
  parse_loop (S fuel) output input =
  match input with
  | EmptyString => Some output
  | String.String _ _ =>
      match skipWhitespace input with
      | None => None
      | Some input1 =>
          let (word, input2) := parseWord input1 in
          parse_loop fuel
            (match word with
             | Some w => output ++ [w]
             | None => output
             end) input2
      end
  end.
Proof. reflexivity. Qed.

Lemma parse_loop_output (fuel : nat) :
  forall output input,
  parse_loop fuel output input
  = option_map (app output) (parse_loop fuel [] input).
Proof.
  induction fuel as [|fuel IH]; intros output input; [reflexivity|].
  rewrite !parse_loop_S. destruct input as [|c input].
  { simpl. now rewrite app_nil_r. }
  destruct (skipWhitespace (String.String c input)) as [input1|];
    [|reflexivity].
  destruct (parseWord input1) as [[w|] input2]; [|apply IH].
  rewrite (IH (output ++ [w])), (IH ([] ++ [w])).
  destruct (parse_loop fuel [] input2); simpl; [|reflexivity].
  now rewrite <- app_assoc.
Qed.

(** X5: one turn of the loop of [parse] on a text that is not empty moves
    the cursor forward: after [skipWhitespace] and [parseWord] less text is
    left than before, which is why the loop ends. *)
Theorem parse_progress (c : ascii) (input input1 input2 : string)
  (word : option Token) :
  skipWhitespace (String.String c input) = Some input1 ->
  parseWord input1 = (word, input2) ->
  length input2 < length (String.String c input).
Proof.
  intros Hskip Hword.
  destruct (skipWhitespace_spec (String.String c input)) as (r & Hr & Hle & Hw).
  rewrite Hskip in Hr. injection Hr as <-.
  destruct input1 as [|c1 input1].
  - injection Hword as <- <-. simpl. lia.
  - destruct (parseWord_at_word c1 input1 Hw) as (w & r & Hr & _ & Hle').
    rewrite Hword in Hr. injection Hr as -> ->. simpl in *. lia.
Qed.

Lemma parse_progress_witness :
  skipWhitespace "  a b" = Some "a b"
  /\ parseWord "a b" = (Some (String "a"), " b")
  /\ length " b" < length "  a b".
Proof.
  split; [reflexivity|]. split; [reflexivity|].
  apply (parse_progress " " " a b" "a b" " b" (Some (String "a")));
    reflexivity.
Defined.

Lemma parse_step_length (c : ascii) (input input1 input2 : string)
  (word : option Token) :
  skipWhitespace (String.String c input) = Some input1 ->
  parseWord input1 = (word, input2) ->
  length input2 <= length input.
Proof.
  intros Hskip Hword.
  destruct (skipWhitespace_spec (String.String c input)) as (r & Hr & Hle & Hw).
  rewrite Hskip in Hr. injection Hr as <-.
  destruct input1 as [|c1 input1].
  - injection Hword as <- <-. simpl. lia.
  - destruct (parseWord_at_word c1 input1 Hw) as (w & r & Hr & _ & Hle').
    rewrite Hword in Hr. injection Hr as -> ->. simpl in *. lia.
Qed.

Lemma parse_loop_fuel (fuel1 : nat) :
  forall fuel2 input,
  length input < fuel1 -> length input < fuel2 ->
  parse_loop fuel1 [] input = parse_loop fuel2 [] input.
Proof.
  induction fuel1 as [|fuel1 IH]; intros fuel2 input H1 H2; [lia|].
  destruct fuel2 as [|fuel2]; [lia|].
  rewrite !parse_loop_S. destruct input as [|c input]; [reflexivity|].
  destruct (skipWhitespace (String.String c input)) as [input1|] eqn:Hskip;
    [|reflexivity].
  destruct (parseWord input1) as [word input2] eqn:Hword.
  pose proof (parse_step_length _ _ _ _ _ Hskip Hword) as Hlen.
  simpl in H1, H2.
  rewrite (parse_loop_output fuel1), (parse_loop_output fuel2).
  rewrite (IH fuel2 input2) by lia. reflexivity.
Qed.

Lemma parse_tokenize (input : string) :
  parse input = Some (tokenize input).
Proof.
  unfold tokenize. now destruct (parse_terminates input) as (tokens & ->).
Qed.

(** *** The equations of [tokenize] *)

Lemma tokenize_eq (input : string) :
  tokenize input =
  match skipWhitespace input with
  | None => []
  | Some input1 =>
      match parseWord input1 with
      | (Some w, input2) => w :: tokenize input2
      | (None, _) => []
      end
  end.
Proof.
  destruct input as [|c input]; [reflexivity|].
  unfold tokenize at 1, parse.
  change (length (String.String c input)) with (S (length input)).
  rewrite parse_loop_S.
  destruct (skipWhitespace_spec (String.String c input)) as (input1 & Hskip & _).
  rewrite Hskip.
  destruct (parseWord input1) as [word input2] eqn:Hword.
  pose proof (parse_step_length _ _ _ _ _ Hskip Hword) as Hlen.
  rewrite parse_loop_output.
  rewrite (parse_loop_fuel _ (S (length input2)) input2) by lia.
  fold (parse input2). rewrite parse_tokenize. simpl.
  destruct word as [w|]; [reflexivity|].
  assert (H : fst (parseWord input1) = None) by now rewrite Hword.
  apply parseWord_None in H. subst input1. now injection Hword as <-.
Qed.

Lemma tokenize_empty : tokenize EmptyString = [].
Proof. reflexivity. Qed.

Lemma tokenize_space (c : ascii) (input : string) :
  is_space c = true ->
  tokenize (String.String c input) = tokenize input.
Proof.
  intros Hc. rewrite (tokenize_eq (String.String c input)), (tokenize_eq input).
  now rewrite skipWhitespace_space.
Qed.


Lemma tokenize_Semicolon (input : string) :
  tokenize (String.String ";" input) = Semicolon :: tokenize input.
Proof. now rewrite tokenize_eq, skipWhitespace_at_word. Qed.

Lemma tokenize_OpeningBrace (input : string) :
  tokenize (String.String "{" input) = OpeningBrace :: tokenize input.
Proof. now rewrite tokenize_eq, skipWhitespace_at_word. Qed.

Lemma tokenize_ClosingBrace (input : string) :
  tokenize (String.String "}" input) = ClosingBrace :: tokenize input.
Proof. now rewrite tokenize_eq, skipWhitespace_at_word. Qed.

Lemma is_word_at_word (w s : string) :
  is_word w = true -> at_word (w ++ s).
Proof.
  destruct w as [|c w]; [discriminate|]. simpl. intros H.
  apply andb_true_iff in H. destruct H as [Hc _].
  apply negb_true_iff in Hc. rewrite is_delimiter_blank in Hc.
  apply orb_false_iff in Hc. destruct Hc as [Hc _].
  apply orb_false_iff in Hc. destruct Hc as [Hc _].
  now apply orb_false_iff in Hc.
Qed.

Lemma tokenize_word (w input : string) :
  is_word w = true -> at_delimiter input ->
  tokenize (w ++ input) = String w :: tokenize input.
Proof.
  intros Hw Hd. rewrite tokenize_eq.
  rewrite skipWhitespace_at_word by now apply is_word_at_word.
  now rewrite parseWord_word.
Qed.

End Tokenize.

(** ** Texts and their tokens *)

Section TokenizerProperties.

Lemma tokenize_tokens (input : string) :
  forallb is_tokenizer_token (tokenize input) = true.
Proof.
  remember (length input) as n eqn:Hn. revert input Hn.
  induction n as [n IH] using lt_wf_ind. intros input Hn.
  destruct input as [|c input]; [reflexivity|].
  rewrite tokenize_eq.
  destruct (skipWhitespace_spec (String.String c input))
    as (input1 & Hskip & _ & Hw).
  rewrite Hskip.
  destruct (parseWord input1) as [[t|] input2] eqn:Hword; [|reflexivity].
  pose proof (parse_step_length _ _ _ _ _ Hskip Hword) as Hlen.
  simpl in Hn. simpl forallb.
  rewrite (IH (length input2) ltac:(lia) input2 eq_refl), andb_true_r.
  destruct input1 as [|c1 input1]; [discriminate|].
  destruct (parseWord_at_word c1 input1 Hw) as (w & r & Hr & Hne & _).
  rewrite Hword in Hr. injection Hr as <- <-.
  destruct (parseWord_Some _ _ _ Hword) as (_ & Hflat & Ht).
  destruct t as [| | |content|g]; try reflexivity; [|discriminate].
  simpl. destruct content; [congruence|]. apply Ht.
Qed.

(** X6: every token that [parse] returns is a semicolon, a brace or a
    [String] whose content is a word: at least one character, and no space,
    tab, newline, ['#'], [';'], ['{'] or ['}'] among them. *)
Theorem parse_tokens_words (input : string) :
  exists tokens,
    parse input = Some tokens
    /\ forallb is_tokenizer_token tokens = true.
Proof.
  exists (tokenize input). split; [apply parse_tokenize|apply tokenize_tokens].
Qed.

(** [parse] returns no token exactly when [skipWhitespace] skips the whole
    text. *)
Lemma parse_nil_skipWhitespace (input : string) :
  parse input = Some [] <-> skipWhitespace input = Some EmptyString.
Proof.
  rewrite parse_tokenize. split.
  - intros [= H]. rewrite tokenize_eq in H.
    destruct (skipWhitespace_spec input) as (input1 & Hskip & _).
    rewrite Hskip in *.
    destruct (parseWord input1) as [[t|] input2] eqn:Hword; [discriminate|].
    assert (H0 : fst (parseWord input1) = None) by now rewrite Hword.
    apply parseWord_None in H0. now subst.
  - intros H. rewrite tokenize_eq, H. reflexivity.
Qed.

Lemma skipWhitespace_app_newline (s1 s2 : string) :
  skipWhitespace (s1 ++ String.String "010" s2) =
  match skipWhitespace s1 with
  | Some EmptyString => skipWhitespace s2
  | Some (String.String c r) =>
      Some (String.String c r ++ String.String "010" s2)%string
  | None => None
  end.
Proof.
  remember (length s1) as n eqn:Hn. revert s1 Hn.
  induction n as [n IH] using lt_wf_ind. intros s1 Hn.
  destruct s1 as [|c s].
  { simpl. now rewrite skipWhitespace_space. }
  simpl in Hn.
  change ((String.String c s ++ String.String "010" s2)%string)
    with (String.String c (s ++ String.String "010" s2)).
  destruct (is_blank_cases c) as [Hc|[->|Hc]].
  - rewrite !skipWhitespace_space by assumption.
    apply (IH (length s)); [lia|reflexivity].
  - rewrite !skipWhitespace_comment, skipComment_app_newline.
    pose proof (skipComment_length s) as Hlen.
    destruct (skipComment s) as [|c' r]; [reflexivity|].
    simpl in Hlen. apply (IH (length r)); [lia|reflexivity].
  - rewrite (skipWhitespace_at_word (String.String c s)) by exact Hc.
    now rewrite skipWhitespace_at_word by exact Hc.
Qed.

Lemma parseWord_loop_app_newline (input s2 : string) :
  forall acc,
  parseWord_loop acc (input ++ String.String "010" s2) =
  (fst (parseWord_loop acc input),
   (snd (parseWord_loop acc input) ++ String.String "010" s2)%string).
Proof.
  induction input as [|c input IH]; intros acc; [reflexivity|].
  simpl. fold (is_delimiter c). destruct (is_delimiter c); [reflexivity|].
  apply IH.
Qed.

Lemma parseWord_app_newline (c : ascii) (input s2 : string) :
  parseWord (String.String c input ++ String.String "010" s2) =
  (fst (parseWord (String.String c input)),
   (snd (parseWord (String.String c input)) ++ String.String "010" s2)%string).
Proof.
  change ((String.String c input ++ String.String "010" s2)%string)
    with (String.String c (input ++ String.String "010" s2)).
  unfold parseWord.
  destruct (c =? ";")%char; [reflexivity|].
  destruct (c =? "{")%char; [reflexivity|].
  destruct (c =? "}")%char; [reflexivity|].
  apply (parseWord_loop_app_newline (String.String c input)).
Qed.

(** A newline ends a word and a comment, so that the text behind it is read
    as a text of its own. *)
Lemma tokenize_app_newline (s1 s2 : string) :
  tokenize (s1 ++ String.String "010" s2) = tokenize s1 ++ tokenize s2.
Proof.
  remember (length s1) as n eqn:Hn. revert s1 Hn.
  induction n as [n IH] using lt_wf_ind. intros s1 Hn.
  rewrite (tokenize_eq (s1 ++ String.String "010" s2)), (tokenize_eq s1).
  rewrite skipWhitespace_app_newline.
  destruct s1 as [|c0 s].
  { simpl. now rewrite <- tokenize_eq. }
  destruct (skipWhitespace_spec (String.String c0 s)) as (input1 & Hskip & _ & Hw).
  rewrite Hskip. destruct input1 as [|c input1].
  { simpl. now rewrite <- tokenize_eq. }
  rewrite parseWord_app_newline.
  destruct (parseWord (String.String c input1)) as [word input2] eqn:Hword.
  pose proof (parse_step_length _ _ _ _ _ Hskip Hword) as Hlen.
  simpl fst. simpl snd. simpl in Hn.
  destruct word as [w|].
  - rewrite (IH (length input2) ltac:(lia) input2 eq_refl). reflexivity.
  - assert (H : fst (parseWord (String.String c input1)) = None)
      by now rewrite Hword.
    apply parseWord_None in H. discriminate.
Qed.

(** X8: the tokens of two texts joined by a newline are the tokens of the
    first followed by the tokens of the second. *)
Theorem parse_app_newline (s1 s2 : string) :
  exists tokens1 tokens2,
    parse s1 = Some tokens1
    /\ parse s2 = Some tokens2
    /\ parse (s1 ++ String.String "010" s2) = Some (tokens1 ++ tokens2).
Proof.
  exists (tokenize s1), (tokenize s2).
  rewrite !parse_tokenize, tokenize_app_newline. auto.
Qed.

Lemma token_text_tokenize (t : Token) (input : string) :
  is_tokenizer_token t = true -> at_delimiter input ->
  tokenize (token_text t ++ input) = t :: tokenize input.
Proof.
  intros Ht Hd. destruct t as [| | |content|g]; simpl.
  - apply tokenize_Semicolon.
  - apply tokenize_OpeningBrace.
  - apply tokenize_ClosingBrace.
  - now apply tokenize_word.
  - discriminate.
Qed.

(** X9: a sequence of semicolons, braces and words, written with a space
    behind each token, is read back by [parse] as it is. *)
Theorem parse_tokens_text (tokens : list Token) :
  forallb is_tokenizer_token tokens = true ->
  parse (tokens_text tokens) = Some tokens.
Proof.
  intros H. rewrite parse_tokenize. f_equal.
  induction tokens as [|t tokens IH]; [reflexivity|].
  simpl in H. apply andb_true_iff in H. destruct H as [Ht H].
  simpl tokens_text. rewrite token_text_tokenize by (simpl; auto).
  rewrite tokenize_space by reflexivity. now rewrite IH.
Qed.

Lemma parse_tokens_text_witness :
  forallb is_tokenizer_token
    [String "server"; OpeningBrace; String "listen"; String "80";
     Semicolon; ClosingBrace] = true
  /\ parse (tokens_text
              [String "server"; OpeningBrace; String "listen"; String "80";
               Semicolon; ClosingBrace])
     = Some [String "server"; OpeningBrace; String "listen"; String "80";
             Semicolon; ClosingBrace].
Proof.
  split; [reflexivity|].
  apply (parse_tokens_text
           [String "server"; OpeningBrace; String "listen"; String "80";
            Semicolon; ClosingBrace]).
  reflexivity.
Defined.

End TokenizerProperties.

(** ** Grouping and its inverse *)

Section GrouperProperties.

Lemma ungroup_cons (t : Token) (tokens : list Token) :
  ungroup (t :: tokens) = ungroup_token t ++ ungroup tokens.
Proof. reflexivity. Qed.

Lemma ungroup_token_Group (g : list Token) :
  ungroup_token (Group g) = OpeningBrace :: ungroup g ++ [ClosingBrace].
Proof. reflexivity. Qed.

(** Grouping what [ungroup] wrote gives the grouped tokens back, and goes
    on behind them. *)
Lemma parseGroups_ungroup_app (n : nat) :
  forall c tokens,
  tokens_size c < n ->
  forallb brace_free c = true ->
  parseGroups (ungroup c ++ tokens) =
  (q <- parseGroups tokens ;;
   Return (mkParseGroups (c ++ content q) (rest q))).
Proof.
  induction n as [|n IH]; intros c tokens Hn Hc; [lia|].
  induction c as [|t c IHc].
  { simpl. destruct (parseGroups tokens) as [q| |]; simpl; auto.
    now rewrite ParseGroups_eta. }
  simpl in Hc. apply andb_true_iff in Hc. destruct Hc as [Ht Hc].
  rewrite tokens_size_cons in Hn.
  specialize (IHc ltac:(lia) Hc).
  rewrite ungroup_cons, <- app_assoc.
  destruct t as [| | |s|g]; try discriminate.
  - simpl app. rewrite parseGroups_leaf, IHc by discriminate.
    now destruct (parseGroups tokens).
  - simpl app. rewrite parseGroups_leaf, IHc by discriminate.
    now destruct (parseGroups tokens).
  - rewrite ungroup_token_Group. simpl app. rewrite <- app_assoc. simpl app.
    rewrite parseGroups_OpeningBrace.
    rewrite token_size_Group in Hn. simpl in Ht.
    rewrite (IH g) by (assumption || lia).
    rewrite parseGroups_ClosingBrace, !bind_Return_l. cbn [rest content].
    rewrite IHc, app_nil_r.
    now destruct (parseGroups tokens).
Qed.

(** X10: [parseGroups] undoes the writing of groups as braces: for grouped
    tokens without a brace token at any depth, grouping the sequence in
    which every [Group] is written as its content between braces returns
    those grouped tokens, with the cursor at the end. *)
Theorem parseGroups_ungroup (c : list Token) :
  forallb brace_free c = true ->
  parseGroups (ungroup c) = Return (mkParseGroups c []).
Proof.
  intros Hc.
  pose proof (parseGroups_ungroup_app (S (tokens_size c)) c []
                ltac:(lia) Hc) as H.
  rewrite !app_nil_r in H. rewrite H. simpl. now rewrite app_nil_r.
Qed.

Lemma parseGroups_ungroup_witness :
  forallb brace_free [String "a"; Group [Group []; Semicolon]] = true
  /\ parseGroups (ungroup [String "a"; Group [Group []; Semicolon]])
     = Return (mkParseGroups [String "a"; Group [Group []; Semicolon]] []).
Proof.
  split; [reflexivity|].
  apply (parseGroups_ungroup [String "a"; Group [Group []; Semicolon]]).
  reflexivity.
Defined.

(** X11: [parseGroups] throws exactly when the tokens end inside an opened
    brace (the nesting depth, which no closing brace brought below zero
    before, is positive at the end), and then it throws
    [UnmatchedOpeningBrace]. *)
Theorem parseGroups_Throw (tokens : list Token) (e : exception) :
  parseGroups tokens = Throw e
  <-> e = UnmatchedOpeningBrace /\ exists depth, scan 0 tokens = Ended (S depth).
Proof.
  pose proof (parseGroups_scan tokens) as G.
  destruct (scan 0 tokens) as [[|d]|r].
  - destruct G as (c & ->). split; [discriminate|].
    intros (_ & d & [=]).
  - rewrite G. split.
    + intros [= <-]. split; [reflexivity|now exists d].
    + now intros (-> & _).
  - destruct G as (c & ->). split; [discriminate|].
    intros (_ & d & [=]).
Qed.

(** X12: grouping goes on behind a sequence on which it arrives at the
    end: the grouped tokens of the two sequences are joined, and the
    outcome of the second is the outcome of the whole. *)
Theorem parseGroups_concat (tokens1 tokens2 c1 : list Token) :
  parseGroups tokens1 = Return (mkParseGroups c1 []) ->
  parseGroups (tokens1 ++ tokens2) =
  (q <- parseGroups tokens2 ;;
   Return (mkParseGroups (c1 ++ content q) (rest q))).
Proof.
  intros H. now rewrite (parseGroups_app tokens1 _ H).
Qed.

Lemma parseGroups_concat_witness :
  parseGroups [OpeningBrace; String "a"; ClosingBrace]
  = Return (mkParseGroups [Group [String "a"]] [])
  /\ parseGroups ([OpeningBrace; String "a"; ClosingBrace]
                  ++ [String "b"; ClosingBrace])
     = (q <- parseGroups [String "b"; ClosingBrace] ;;
        Return (mkParseGroups ([Group [String "a"]] ++ content q) (rest q))).
Proof.
  split; [reflexivity|].
  apply (parseGroups_concat [OpeningBrace; String "a"; ClosingBrace]).
  reflexivity.
Defined.

Lemma parseGroups_loop_rest_flat (fuel : nat) :
  forall output input p,
  parseGroups_loop fuel output input = Return p ->
  forallb is_flat input = true ->
  forallb is_flat (rest p) = true.
Proof.
  induction fuel as [|fuel IHf]; intros output input p H Hf; [discriminate|].
  rewrite parseGroups_loop_S in H. destruct input as [|t input'].
  - now injection H as <-.
  - simpl in Hf. apply andb_true_iff in Hf. destruct Hf as [Ht Hf].
    destruct t; try (now apply IHf in H).
    + apply bind_Return in H. destruct H as (p1 & Hp1 & H).
      apply IHf in Hp1; [|assumption].
      destruct (rest p1) as [|t1 r1]; [discriminate|].
      simpl in Hp1. apply andb_true_iff in Hp1.
      now apply IHf in H.
    + injection H as <-. simpl. now rewrite Hf.
Qed.

(** On tokens of the tokenizer, the grouper leaves no brace token. *)
Lemma parseGroups_brace_free (tokens : list Token) :
  forall p,
  parseGroups tokens = Return p ->
  forallb is_flat tokens = true ->
  forallb brace_free (content p) = true.
Proof.
  remember (List.length tokens) as n eqn:Hn.
  revert tokens Hn. induction n as [n IH] using lt_wf_ind.
  intros tokens Hn p H Hflat. destruct tokens as [|t tokens].
  { now injection H as <-. }
  simpl in Hn, Hflat. apply andb_true_iff in Hflat. destruct Hflat as [Ht Hflat].
  destruct t as [| | |s|g]; try discriminate.
  - rewrite parseGroups_leaf in H by discriminate.
    apply bind_Return in H. destruct H as (q & Hq & [= <-]).
    simpl. now apply (IH (List.length tokens) ltac:(lia) tokens eq_refl).
  - rewrite parseGroups_OpeningBrace in H.
    apply bind_Return in H. destruct H as (p1 & Hp1 & H).
    pose proof (parseGroups_rest_length _ _ Hp1) as Hlen.
    pose proof (IH (List.length tokens) ltac:(lia) tokens eq_refl p1 Hp1 Hflat)
      as Hb1.
    destruct (rest p1) as [|t1 r1] eqn:Hrest; [discriminate|].
    apply bind_Return in H. destruct H as (q & Hq & [= <-]).
    assert (Hflat1 : forallb is_flat r1 = true).
    { pose proof (parseGroups_loop_rest_flat _ _ _ _ Hp1 Hflat) as Hf.
      rewrite Hrest in Hf. simpl in Hf. now apply andb_true_iff in Hf. }
    simpl in Hlen.
    pose proof (IH (List.length r1) ltac:(lia) r1 eq_refl q Hq Hflat1) as Hb.
    simpl. now rewrite Hb1, Hb.
  - injection H as <-. reflexivity.
  - rewrite parseGroups_leaf in H by discriminate.
    apply bind_Return in H. destruct H as (q & Hq & [= <-]).
    simpl. now apply (IH (List.length tokens) ltac:(lia) tokens eq_refl).
Qed.

End GrouperProperties.

(** ** Blocks and the tokens they are built from *)

Section BlockBuilderProperties.

(** Induction on blocks, through the bodies of their directives. *)
Lemma Block_nested_ind (P : Block -> Prop) :
  P [] ->
  (forall name args b, P b -> P (mkDirective name args None :: b)) ->
  (forall name args body b,
     P body -> P b -> P (mkDirective name args (Some body) :: b)) ->
  forall b, P b.
Proof.
  intros Hnil Hsemi Hgroup.
  refine (fix block (b : list Directive) : P b :=
            match b with
            | [] => Hnil
            | d :: b' => (fix directive (d : Directive)
                            : forall b', P b' -> P (d :: b') :=
                            match d with
                            | mkDirective name args None =>
                                fun b' Hb' => Hsemi name args b' Hb'
                            | mkDirective name args (Some body) =>
                                fun b' Hb' =>
                                  Hgroup name args body b'
                                    ((fix body_ind (l : list Directive) : P l :=
                                        match l with
                                        | [] => Hnil
                                        | d' :: l' =>
                                            directive d' l' (body_ind l')
                                        end) body) Hb'
                            end) d b' (block b')
            end).
Qed.

Lemma unparse_cons (d : Directive) (b : Block) :
  unparse (d :: b) = unparse_directive d ++ unparse b.
Proof. reflexivity. Qed.

Lemma unparse_directive_None (name : string) (args : list string) :
  unparse_directive (mkDirective name args None)
  = String name :: map String args ++ [Semicolon].
Proof. reflexivity. Qed.

Lemma unparse_directive_Some (name : string) (args : list string) (body : Block) :
  unparse_directive (mkDirective name args (Some body))
  = String name :: map String args ++ [Group (unparse body)].
Proof. reflexivity. Qed.

(** X13: the grouped tokens determine the block and the block determines
    the grouped tokens: when [parse_block] returns a block, its input was
    exactly that block written back, every directive as its name, its
    arguments and a semicolon or the [Group] of its body. *)
Theorem parse_block_unparse (input : list Token) :
  forall b, parse_block input = Return b -> input = unparse b.
Proof.
  remember (tokens_size input) as n eqn:Hn. revert input Hn.
  induction n as [n IH] using lt_wf_ind. intros input Hn b H.
  destruct (parse_block_inv input b H)
    as [[-> ->]
       |[(name & ss & input3 & b3 & -> & H3 & ->)
        |(name & ss & g & input3 & body & b3 & -> & Hg & H3 & ->)]].
  - reflexivity.
  - rewrite unparse_cons, unparse_directive_None.
    simpl. rewrite <- app_assoc. simpl. do 3 f_equal.
    apply (IH (tokens_size input3)); auto.
    subst n. rewrite tokens_size_cons, tokens_size_app, tokens_size_cons.
    simpl. lia.
  - rewrite unparse_cons, unparse_directive_Some.
    simpl. rewrite <- app_assoc. simpl.
    assert (Hsize : tokens_size g < n /\ tokens_size input3 < n).
    { subst n. rewrite tokens_size_cons, tokens_size_app, tokens_size_cons.
      rewrite token_size_Group. simpl. lia. }
    rewrite <- (IH (tokens_size g) (proj1 Hsize) g eq_refl body Hg).
    rewrite <- (IH (tokens_size input3) (proj2 Hsize) input3 eq_refl b3 H3).
    reflexivity.
Qed.

Lemma parse_block_unparse_witness :
  parse_block [String "a"; Group [String "b"; String "c"; Semicolon]]
  = Return [mkDirective "a" [] (Some [mkDirective "b" ["c"] None])]
  /\ [String "a"; Group [String "b"; String "c"; Semicolon]]
     = unparse [mkDirective "a" [] (Some [mkDirective "b" ["c"] None])].
Proof.
  split; [reflexivity|].
  apply (parse_block_unparse
           [String "a"; Group [String "b"; String "c"; Semicolon]]).
  reflexivity.
Defined.

Lemma parse_block_of_unparse (b : Block) :
  parse_block (unparse b) = Return b.
Proof.
  induction b as [|name args b IHb|name args body b IHbody IHb]
    using Block_nested_ind.
  - reflexivity.
  - rewrite unparse_cons, unparse_directive_None.
    simpl. rewrite <- app_assoc. simpl.
    now rewrite parse_block_Semicolon, IHb.
  - rewrite unparse_cons, unparse_directive_Some.
    simpl. rewrite <- app_assoc. simpl.
    now rewrite parse_block_Group, IHbody, IHb.
Qed.

(** X14: every block is built by [parse_block] from that block written
    back as grouped tokens; no block is out of its reach and none needs
    more than its own tokens. *)
Theorem parse_block_round_trip (b : Block) :
  parse_block (unparse b) = Return b.
Proof. apply parse_block_of_unparse. Qed.

(** X15: [parse_block] goes on behind a sequence of complete directives:
    the block of the whole is the block of the first part followed by the
    block of the second, and an exception of the second part is the
    exception of the whole. *)
Theorem parse_block_concat (input1 input2 : list Token) (b1 : Block) :
  parse_block input1 = Return b1 ->
  parse_block (input1 ++ input2) =
  (b2 <- parse_block input2 ;; Return (b1 ++ b2)).
Proof. intros H. now apply parse_block_app. Qed.

Lemma parse_block_concat_witness :
  parse_block [String "a"; Semicolon] = Return [mkDirective "a" [] None]
  /\ parse_block ([String "a"; Semicolon] ++ [String "b"; Group []])
     = (b2 <- parse_block [String "b"; Group []] ;;
        Return ([mkDirective "a" [] None] ++ b2)).
Proof.
  split; [reflexivity|].
  apply (parse_block_concat [String "a"; Semicolon]). reflexivity.
Defined.

(** X16: when the tokens end behind the name and the arguments of a
    directive, with neither a semicolon nor a group, [parse_block] throws
    [UnterminatedDirective]; a directive without any terminator is not
    taken as complete. *)
Theorem parse_block_unterminated_directive
  (pre : list Token) (b : Block) (name : string) (ss : list string) :
  parse_block pre = Return b ->
  parse_block (pre ++ String name :: map String ss)
  = Throw UnterminatedDirective.
Proof.
  intros H. rewrite (parse_block_app pre b H).
  now rewrite parse_block_unterminated.
Qed.

Lemma parse_block_unterminated_directive_witness :
  parse_block [String "a"; Semicolon] = Return [mkDirective "a" [] None]
  /\ parse_block ([String "a"; Semicolon] ++ String "listen" :: map String ["80"])
     = Throw UnterminatedDirective.
Proof.
  split; [reflexivity|].
  apply (parse_block_unterminated_directive
           [String "a"; Semicolon] [mkDirective "a" [] None]).
  reflexivity.
Defined.

(** X17: when the name and the arguments of a directive are followed by a
    brace token (which the grouper would have removed), [parse_block]
    throws [ExpectedTerminatorOrBlock]. *)
Theorem parse_block_expected_terminator
  (pre : list Token) (b : Block) (name : string) (ss : list string)
  (t : Token) (rest : list Token) :
  parse_block pre = Return b ->
  t = OpeningBrace \/ t = ClosingBrace ->
  parse_block (pre ++ String name :: map String ss ++ t :: rest)
  = Throw ExpectedTerminatorOrBlock.
Proof.
  intros H Ht. rewrite (parse_block_app pre b H).
  rewrite parse_block_String, parse_args_strings
    by (destruct Ht as [-> | ->]; reflexivity).
  now destruct Ht as [-> | ->].
Qed.

Lemma parse_block_expected_terminator_witness :
  parse_block [String "a"; Semicolon] = Return [mkDirective "a" [] None]
  /\ (OpeningBrace = OpeningBrace \/ OpeningBrace = ClosingBrace)
  /\ parse_block ([String "a"; Semicolon]
                  ++ String "b" :: map String ["c"] ++ OpeningBrace :: [])
     = Throw ExpectedTerminatorOrBlock.
Proof.
  split; [reflexivity|]. split; [now left|].
  apply (parse_block_expected_terminator
           [String "a"; Semicolon] [mkDirective "a" [] None]);
    [reflexivity|now left].
Defined.

End BlockBuilderProperties.

(** ** The exceptions of the builder and of the pipeline *)

Section Exceptions.

Lemma parse_args_Throw (input : list Token) :
  forall acc e, parse_args acc input = Throw e -> e = UnterminatedDirective.
Proof.
  induction input as [|t input IH]; intros acc e H; simpl in H.
  - now injection H as <-.
  - destruct t; try discriminate. now apply IH in H.
Qed.

Lemma forallb_brace_free_strings (ss : list string) (tokens : list Token) :
  forallb brace_free (map String ss ++ tokens) = forallb brace_free tokens.
Proof. induction ss as [|s ss IH]; simpl; auto. Qed.

(** The exceptions of [parse_block], and where the third comes from. *)
Lemma parse_block_Throw_cases (input : list Token) :
  forall e, parse_block input = Throw e ->
  e = ExpectedDirectiveName
  \/ e = UnterminatedDirective
  \/ (e = ExpectedTerminatorOrBlock /\ forallb brace_free input = false).
Proof.
  remember (tokens_size input) as n eqn:Hn. revert input Hn.
  induction n as [n IH] using lt_wf_ind. intros input Hn e H.
  destruct input as [|t input1]; [discriminate|].
  destruct (is_String t) eqn:Ht.
  2:{ rewrite parse_block_not_String in H by assumption.
      injection H as <-. now left. }
  destruct t as [| | |name|]; try discriminate.
  rewrite parse_block_String in H.
  destruct (parse_args [] input1) as [[args input2]| |] eqn:Hargs.
  - destruct (parse_args_Return _ _ _ _ Hargs)
      as (ss & t & input3 & -> & -> & -> & Hns).
    rewrite bind_Return_l in H. simpl app in *.
    assert (Hsize : forall g, t = Group g -> tokens_size g < n).
    { intros g ->. subst n.
      rewrite tokens_size_cons, tokens_size_app, tokens_size_cons.
      rewrite token_size_Group. simpl. lia. }
    assert (Hsize3 : tokens_size input3 < n).
    { subst n. rewrite tokens_size_cons, tokens_size_app, tokens_size_cons.
      destruct t; simpl; lia. }
    cbn [forallb brace_free]. rewrite forallb_brace_free_strings.
    cbn [forallb].
    destruct t as [| | |s|g]; try discriminate.
    + destruct (parse_block input3) as [b3| |] eqn:H3; try discriminate.
      injection H as <-.
      destruct (IH _ Hsize3 input3 eq_refl _ H3) as [->|[->|[-> Hb]]];
        [now left|now right; left|right; right; split; [reflexivity|]].
      cbn [brace_free andb]. exact Hb.
    + injection H as <-. right. right. now split.
    + injection H as <-. right. right. now split.
    + destruct (parse_block g) as [body| |] eqn:Hg; try discriminate.
      * rewrite bind_Return_l in H.
        destruct (parse_block input3) as [b3| |] eqn:H3; try discriminate.
        injection H as <-.
        destruct (IH _ Hsize3 input3 eq_refl _ H3) as [->|[->|[-> Hb]]];
          [now left|now right; left|right; right; split; [reflexivity|]].
        rewrite Hb. apply andb_false_r.
      * injection H as <-.
        destruct (IH _ (Hsize g eq_refl) g eq_refl _ Hg) as [->|[->|[-> Hb]]];
          [now left|now right; left|right; right; split; [reflexivity|]].
        cbn [brace_free]. now rewrite Hb.
  - injection H as <-. apply parse_args_Throw in Hargs. auto.
  - now apply parse_args_terminates in Hargs.
Qed.

(** X18: [parse_block] throws only [ExpectedDirectiveName],
    [UnterminatedDirective] or [ExpectedTerminatorOrBlock]; the second
    [ParsingError] for the end of the input, thrown behind the argument
    loop, is never reached. *)
Theorem parse_block_exceptions (input : list Token) (e : exception) :
  parse_block input = Throw e ->
  (e = ExpectedDirectiveName
   \/ e = UnterminatedDirective
   \/ e = ExpectedTerminatorOrBlock)
  /\ e <> ParsingError "unexpected end of input".
Proof.
  intros H.
  destruct (parse_block_Throw_cases input e H) as [->|[->|[-> _]]];
    (split; [auto|discriminate]).
Qed.

Lemma parse_block_exceptions_witness :
  parse_block [String "a"] = Throw UnterminatedDirective
  /\ (UnterminatedDirective = ExpectedDirectiveName
      \/ UnterminatedDirective = UnterminatedDirective
      \/ UnterminatedDirective = ExpectedTerminatorOrBlock)
  /\ UnterminatedDirective <> ParsingError "unexpected end of input".
Proof.
  split; [reflexivity|].
  apply (parse_block_exceptions [String "a"]). reflexivity.
Defined.

Lemma tokenize_flat (input : string) :
  forallb is_flat (tokenize input) = true.
Proof.
  pose proof (tokenize_tokens input) as H.
  induction (tokenize input) as [|t tokens IH]; [reflexivity|].
  simpl in *. apply andb_true_iff in H. destruct H as [Ht H].
  rewrite IH by assumption. now destruct t.
Qed.

Lemma pipeline_tokenize (input : string) :
  pipeline input =
  (g <- parseGroups (tokenize input) ;; parse_block (content g)).
Proof. unfold pipeline. now rewrite parse_tokenize. Qed.

(** X19: on any text the pipeline of [main] returns a block or throws
    [UnmatchedOpeningBrace], [ExpectedDirectiveName] or
    [UnterminatedDirective]; [ExpectedTerminatorOrBlock] cannot come out
    of it, because the grouper leaves the builder no brace token. *)
Theorem pipeline_exceptions (input : string) (e : exception) :
  pipeline input = Throw e ->
  e = UnmatchedOpeningBrace
  \/ e = ExpectedDirectiveName
  \/ e = UnterminatedDirective.
Proof.
  rewrite pipeline_tokenize. intros H.
  destruct (parseGroups (tokenize input)) as [g| |] eqn:Hg.
  - rewrite bind_Return_l in H.
    pose proof (parseGroups_brace_free _ _ Hg (tokenize_flat input)) as Hb.
    destruct (parse_block_Throw_cases _ _ H) as [->|[->|[_ Hb']]]; auto.
    congruence.
  - injection H as <-. left.
    pose proof (parseGroups_scan (tokenize input)) as G.
    destruct (scan 0 (tokenize input)) as [[|d]|r].
    + destruct G as (c & G). congruence.
    + congruence.
    + destruct G as (c & G). congruence.
  - discriminate.
Qed.

Lemma pipeline_exceptions_witness :
  pipeline "server { listen 80" = Throw UnmatchedOpeningBrace
  /\ (UnmatchedOpeningBrace = UnmatchedOpeningBrace
      \/ UnmatchedOpeningBrace = ExpectedDirectiveName
      \/ UnmatchedOpeningBrace = UnterminatedDirective).
Proof.
  split; [vm_compute; reflexivity|].
  apply (pipeline_exceptions "server { listen 80").
  vm_compute. reflexivity.
Defined.

End Exceptions.

(** ** The pipeline on joined texts *)

Section PipelineProperties.

(** X20: a closing brace with no opening brace before it ends the
    configuration without any error: when the braces of the text before it
    are matched, the pipeline on the whole text returns what it returns on
    that first part, and the text behind the brace is never looked at. *)
Theorem pipeline_stray_ClosingBrace (s1 s2 : string) (tokens1 : list Token) :
  parse s1 = Some tokens1 ->
  scan 0 tokens1 = Ended 0 ->
  pipeline (s1 ++ String.String "010" (String.String "}" s2)) = pipeline s1.
Proof.
  intros Hparse Hscan. rewrite !pipeline_tokenize.
  rewrite tokenize_app_newline, tokenize_ClosingBrace.
  rewrite parse_tokenize in Hparse. injection Hparse as <-.
  pose proof (parseGroups_scan (tokenize s1)) as G. rewrite Hscan in G.
  destruct G as (c & G).
  rewrite (parseGroups_app _ _ G), G. cbn [rest content].
  rewrite parseGroups_ClosingBrace, !bind_Return_l. cbn [content].
  now rewrite app_nil_r.
Qed.

Lemma pipeline_stray_ClosingBrace_witness :
  parse "a { b; }" = Some [String "a"; OpeningBrace; String "b"; Semicolon;
                           ClosingBrace]
  /\ scan 0 [String "a"; OpeningBrace; String "b"; Semicolon; ClosingBrace]
     = Ended 0
  /\ pipeline ("a { b; }" ++ String.String "010" (String.String "}" " c {"))
     = pipeline "a { b; }".
Proof.
  split; [reflexivity|]. split; [reflexivity|].
  apply (pipeline_stray_ClosingBrace "a { b; }" " c {"
           [String "a"; OpeningBrace; String "b"; Semicolon; ClosingBrace]);
    reflexivity.
Defined.

(** X21: two configurations joined by a newline: when the pipeline returns
    a block on the first text and the braces of that text are matched, the
    pipeline on the joined text returns that block followed by the block
    of the second text, or throws what the second text makes it throw. *)
Theorem pipeline_app_newline
  (s1 s2 : string) (tokens1 : list Token) (b1 : Block) :
  parse s1 = Some tokens1 ->
  scan 0 tokens1 = Ended 0 ->
  pipeline s1 = Return b1 ->
  pipeline (s1 ++ String.String "010" s2) =
  (b2 <- pipeline s2 ;; Return (b1 ++ b2)).
Proof.
  intros Hparse Hscan H1. rewrite !pipeline_tokenize in *.
  rewrite tokenize_app_newline.
  rewrite parse_tokenize in Hparse. injection Hparse as <-.
  pose proof (parseGroups_scan (tokenize s1)) as G. rewrite Hscan in G.
  destruct G as (c & G). rewrite G, bind_Return_l in H1. simpl in H1.
  rewrite (parseGroups_app _ _ G). cbn [rest content].
  destruct (parseGroups (tokenize s2)) as [q| |]; try reflexivity.
  rewrite !bind_Return_l. cbn [content].
  apply (parse_block_app c b1 H1).
Qed.

Lemma pipeline_app_newline_witness :
  parse "a;" = Some [String "a"; Semicolon]
  /\ scan 0 [String "a"; Semicolon] = Ended 0
  /\ pipeline "a;" = Return [mkDirective "a" [] None]
  /\ pipeline ("a;" ++ String.String "010" "b { c; }")
     = (b2 <- pipeline "b { c; }" ;; Return ([mkDirective "a" [] None] ++ b2)).
Proof.
  split; [reflexivity|]. split; [reflexivity|]. split; [reflexivity|].
  apply (pipeline_app_newline "a;" "b { c; }" [String "a"; Semicolon]);
    reflexivity.
Defined.

End PipelineProperties.

(** ** Printing a block and reading it back *)

Section Printing.

















End Printing.

(** ** Texts, character by character *)

Section Lexemes.

(** What [skipWhitespace] does behind a ['#']. *)
Lemma skipWhitespace_blank_scan (g : string) :
  forall in_comment b,
  blank_scan in_comment g = Some b ->
  forall s,
  (if in_comment then
     match skipComment (g ++ s) with
     | EmptyString => Some EmptyString
     | String.String _ r => skipWhitespace r
     end
   else skipWhitespace (g ++ s))
  = (if b then
       match skipComment s with
       | EmptyString => Some EmptyString
       | String.String _ r => skipWhitespace r
       end
     else skipWhitespace s).
Proof.
  induction g as [|c g IH]; intros in_comment b H s.
  - simpl in H. now injection H as ->.
  - cbn [blank_scan] in H. destruct in_comment.
    + change ((String.String c g ++ s)%string) with (String.String c (g ++ s)).
      cbn [skipComment]. destruct (c =? "010")%char.
      * apply (IH false b H s).
      * apply (IH true b H s).
    + change ((String.String c g ++ s)%string) with (String.String c (g ++ s)).
      destruct (c =? "#")%char eqn:Hc.
      * apply Ascii.eqb_eq in Hc. subst c. rewrite skipWhitespace_comment.
        apply (IH true b H s).
      * destruct (is_space c) eqn:Hs; [|discriminate].
        rewrite skipWhitespace_space by assumption.
        apply (IH false b H s).
Qed.

Lemma skipWhitespace_not_blank (g : string) :
  forall in_comment,
  blank_scan in_comment g = None ->
  (if in_comment then
     match skipComment g with
     | EmptyString => Some EmptyString
     | String.String _ r => skipWhitespace r
     end
   else skipWhitespace g)
  <> Some EmptyString.
Proof.
  induction g as [|c g IH]; intros in_comment H; [discriminate|].
  cbn [blank_scan] in H. destruct in_comment.
  - cbn [skipComment]. destruct (c =? "010")%char.
    + apply (IH false H).
    + apply (IH true H).
  - destruct (c =? "#")%char eqn:Hc.
    + apply Ascii.eqb_eq in Hc. subst c. rewrite skipWhitespace_comment.
      apply (IH true H).
    + destruct (is_space c) eqn:Hs.
      * rewrite skipWhitespace_space by assumption. apply (IH false H).
      * rewrite skipWhitespace_at_word; [discriminate|].
        simpl. rewrite is_blank_space, Hs, Hc. reflexivity.
Qed.

Lemma only_blank_skipWhitespace (text : string) :
  only_blank text = true <-> skipWhitespace text = Some EmptyString.
Proof.
  unfold only_blank. destruct (blank_scan false text) as [b|] eqn:H.
  - split; [intros _|reflexivity].
    pose proof (skipWhitespace_blank_scan text false b H EmptyString) as E.
    cbv beta iota in E. rewrite append_empty_r in E. rewrite E.
    now destruct b.
  - split; [discriminate|]. intros E.
    now apply (skipWhitespace_not_blank text false H) in E.
Qed.

(** X7: [parse] returns no token exactly when the text holds only white
    space and comments: spaces, tabs, newlines, and from a ['#'] outside a
    comment every character up to the next newline or the end. *)
Theorem parse_no_token (input : string) :
  parse input = Some [] <-> only_blank input = true.
Proof.
  rewrite only_blank_skipWhitespace. apply parse_nil_skipWhitespace.
Qed.

Lemma tokenize_gap (gap text : string) :
  is_gap gap = true -> tokenize (gap ++ text) = tokenize text.
Proof.
  unfold is_gap. intros H.
  destruct (blank_scan false gap) as [[|]|] eqn:Hscan; try discriminate.
  rewrite (tokenize_eq (gap ++ text)), (tokenize_eq text).
  now rewrite (skipWhitespace_blank_scan gap false false Hscan text).
Qed.

Lemma tokenize_only_blank (blank : string) :
  only_blank blank = true -> tokenize blank = [].
Proof.
  intros H. apply only_blank_skipWhitespace in H.
  now rewrite tokenize_eq, H.
Qed.

Lemma tokenize_token (t : Token) (text : string) :
  is_tokenizer_token t = true ->
  (is_String t = true -> at_delimiter text) ->
  tokenize (token_text t ++ text) = t :: tokenize text.
Proof.
  intros Ht Hd. destruct t as [| | |content|g]; simpl.
  - apply tokenize_Semicolon.
  - apply tokenize_OpeningBrace.
  - apply tokenize_ClosingBrace.
  - apply tokenize_word; auto.
  - discriminate.
Qed.

(** The tokenizer reads the lexemes of a text. *)
Lemma lexemes_tokenize (text : string) (tokens : list Token) :
  lexemes text tokens -> tokenize text = tokens.
Proof.
  induction 1 as [blank Hblank|gap t text tokens Hgap Ht Hd Hlex IH].
  - now apply tokenize_only_blank.
  - rewrite tokenize_gap, tokenize_token by assumption. now rewrite IH.
Qed.

Lemma is_space_not_punctuation (c : ascii) :
  is_space c = true ->
  (c =? "#")%char = false /\ (c =? ";")%char = false
  /\ (c =? "{")%char = false /\ (c =? "}")%char = false.
Proof.
  unfold is_space. intros H.
  apply orb_true_iff in H. destruct H as [H|H];
    [apply orb_true_iff in H; destruct H as [H|H]|];
    apply Ascii.eqb_eq in H; subst c; repeat split; reflexivity.
Qed.

Lemma not_delimiter_not_punctuation (c : ascii) :
  is_delimiter c = false ->
  (c =? "#")%char = false /\ (c =? ";")%char = false
  /\ (c =? "{")%char = false /\ (c =? "}")%char = false.
Proof.
  unfold is_delimiter. intros H.
  repeat (apply orb_false_iff in H; destruct H as [H ?]). auto.
Qed.

Lemma count_top_text_blank (target : ascii) (g : string) :
  target = ";"%char \/ target = "{"%char ->
  forall in_comment b,
  blank_scan in_comment g = Some b ->
  forall depth s,
  count_top_text target in_comment depth (g ++ s)
  = count_top_text target b depth s.
Proof.
  intros Htarget.
  induction g as [|c g IH]; intros in_comment b H depth s.
  - simpl in H. now injection H as ->.
  - cbn [blank_scan] in H.
    change ((String.String c g ++ s)%string) with (String.String c (g ++ s)).
    cbn [count_top_text]. destruct in_comment.
    + now apply IH.
    + destruct (c =? "#")%char eqn:Hc; [now apply IH|].
      destruct (is_space c) eqn:Hs; [|discriminate].
      destruct (is_space_not_punctuation c Hs) as (_ & H1 & H2 & H3).
      rewrite H2, H3.
      replace ((c =? target)%char) with false
        by (destruct Htarget as [-> | ->]; auto).
      rewrite andb_false_r. now apply IH.
Qed.

Lemma count_top_text_word (target : ascii) (w : string) :
  target = ";"%char \/ target = "{"%char ->
  no_delimiter w = true ->
  forall depth s,
  count_top_text target false depth (w ++ s)
  = count_top_text target false depth s.
Proof.
  intros Htarget. induction w as [|c w IH]; intros Hw depth s; [reflexivity|].
  simpl in Hw. apply andb_true_iff in Hw. destruct Hw as [Hc Hw].
  apply negb_true_iff in Hc.
  destruct (not_delimiter_not_punctuation c Hc) as (H0 & H1 & H2 & H3).
  change ((String.String c w ++ s)%string) with (String.String c (w ++ s)).
  cbn [count_top_text]. rewrite H0, H2, H3.
  replace ((c =? target)%char) with false
    by (destruct Htarget as [-> | ->]; auto).
  rewrite andb_false_r. now apply IH.
Qed.

(** The top-level characters of a text are the top-level tokens of its
    lexemes. *)
Lemma count_top_text_lexemes (target : ascii) (f : Token -> bool)
  (text : string) (tokens : list Token) :
  (target = ";"%char /\ f = is_Semicolon)
  \/ (target = "{"%char /\ f = is_OpeningBrace) ->
  lexemes text tokens ->
  forall depth,
  count_top_text target false depth text = count_top f depth tokens.
Proof.
  intros Htarget.
  assert (Ht : target = ";"%char \/ target = "{"%char)
    by (destruct Htarget as [[-> _]|[-> _]]; auto).
  induction 1 as [blank Hblank|gap t text tokens Hgap Htok Hd Hlex IH];
    intros depth.
  - unfold only_blank in Hblank.
    destruct (blank_scan false blank) as [b|] eqn:Hscan; [|discriminate].
    pose proof (count_top_text_blank target blank Ht false b Hscan depth
                  EmptyString) as E.
    rewrite append_empty_r in E. rewrite E. reflexivity.
  - unfold is_gap in Hgap.
    destruct (blank_scan false gap) as [[|]|] eqn:Hscan; try discriminate.
    rewrite (count_top_text_blank target gap Ht false false Hscan).
    destruct t as [| | |content|g]; try discriminate.
    + cbn [token_text append count_top_text count_top Ascii.eqb Bool.eqb].
      rewrite IH.
      destruct Htarget as [[-> ->]|[-> ->]]; reflexivity.
    + cbn [token_text append count_top_text count_top Ascii.eqb Bool.eqb].
      rewrite IH.
      destruct Htarget as [[-> ->]|[-> ->]]; reflexivity.
    + cbn [token_text append count_top_text count_top Ascii.eqb Bool.eqb].
      rewrite IH.
      destruct Htarget as [[-> ->]|[-> ->]]; reflexivity.
    + cbn [token_text]. simpl in Htok.
      assert (Hw : no_delimiter content = true)
        by (destruct content; [discriminate|exact Htok]).
      rewrite (count_top_text_word target content Ht Hw).
      cbn [count_top]. rewrite IH.
      destruct Htarget as [[-> ->]|[-> ->]]; cbn [is_Semicolon is_OpeningBrace];
        now rewrite andb_false_r.
Qed.

(** C4: for every input text with balanced braces and well-formed
    directives (the lexemes of the text, between white space and comments,
    follow the directive grammar) the pipeline returns a block, and the
    number of its directives is the number of top-level [';'] plus the
    number of top-level ['{'] of the text, counted in its characters
    outside comments. *)
Theorem pipeline_well_formed_text (input : string) :
  well_formed_text input ->
  exists b,
    pipeline input = Return b
    /\ List.length b = text_terminators input + text_groups input.
Proof.
  intros (tokens & Hlex & Hwf).
  destruct (well_formed_parse_block tokens Hwf) as (g & b & Hg & Hb & Hlen).
  exists b. split.
  - rewrite pipeline_tokenize, (lexemes_tokenize _ _ Hlex), Hg. exact Hb.
  - unfold text_terminators, text_groups.
    rewrite (count_top_text_lexemes ";" is_Semicolon input tokens)
      by (auto || assumption).
    rewrite (count_top_text_lexemes "{" is_OpeningBrace input tokens)
      by (auto || assumption).
    exact Hlen.
Qed.

Lemma pipeline_well_formed_text_witness :
  well_formed_text ("a; #b;" ++ String.String "010" "s { l 8; }")
  /\ exists b,
       pipeline ("a; #b;" ++ String.String "010" "s { l 8; }") = Return b
       /\ List.length b
          = text_terminators ("a; #b;" ++ String.String "010" "s { l 8; }")
            + text_groups ("a; #b;" ++ String.String "010" "s { l 8; }").
Proof.
  assert (Hwf : well_formed_text
                  ("a; #b;" ++ String.String "010" "s { l 8; }")).
  { exists [String "a"; Semicolon; String "s"; OpeningBrace;
            String "l"; String "8"; Semicolon; ClosingBrace].
    split.
    - apply (lexemes_token "" (String "a")
               ("; #b;" ++ String.String "010" "s { l 8; }"));
        [reflexivity|reflexivity|intros _; reflexivity|].
      apply (lexemes_token "" Semicolon
               (" #b;" ++ String.String "010" "s { l 8; }"));
        [reflexivity|reflexivity|discriminate|].
      apply (lexemes_token (" #b;" ++ String.String "010" "") (String "s")
               " { l 8; }");
        [reflexivity|reflexivity|intros _; reflexivity|].
      apply (lexemes_token " " OpeningBrace " l 8; }");
        [reflexivity|reflexivity|discriminate|].
      apply (lexemes_token " " (String "l") " 8; }");
        [reflexivity|reflexivity|intros _; reflexivity|].
      apply (lexemes_token " " (String "8") "; }");
        [reflexivity|reflexivity|intros _; reflexivity|].
      apply (lexemes_token "" Semicolon " }");
        [reflexivity|reflexivity|discriminate|].
      apply (lexemes_token " " ClosingBrace "");
        [reflexivity|reflexivity|discriminate|].
      apply lexemes_end. reflexivity.
    - apply (wf_simple "a" []).
      apply (wf_nested "s" [] [String "l"; String "8"; Semicolon] []).
      + apply (wf_simple "l" ["8"] []). apply wf_empty.
      + apply wf_empty. }
  split; [exact Hwf|].
  apply (pipeline_well_formed_text
           ("a; #b;" ++ String.String "010" "s { l 8; }")).
  exact Hwf.
Defined.

End Lexemes.
